(** * Tonal: pitches, intervals and their arithmetic

    A shallow embedding of [dist/tonal.js].  Pitches are the tagged arrays
    of the source, [['tnl', fifths, octaves, direction]]; the parse cache is
    a finite map threaded through every function that consults it. *)

From Stdlib Require Import ZArith String Ascii List Lia Bool.
From Stdlib Require Import Decimal DecimalString DecimalPos DecimalZ.
From Stdlib Require Import Reals Lra.
From stdpp Require Import gmap strings.

Open Scope Z_scope.

(** ** JavaScript values

    Numbers are the integers (exact as doubles below 2^53, with -0
    identified with 0) together with [NaN]; the library computes frequencies
    only in [wellTempered], which is given a real-valued result below. *)

#[warnings="-register-all"]
Inductive value : Type :=
| Undef
| Null
| NaN
| Num (n : Z)
| Str (s : string)
| Arr (l : list value).

(** Decimal rendering of an integer, as [String(n)] gives it. *)
Definition dec (n : Z) : string := NilZero.string_of_int (Z.to_int n).

(** [String(v)]; an array joins its elements with commas, [null] and
    [undefined] elements being empty. *)
Fixpoint toStr (v : value) : string :=
  match v with
  | Undef => "undefined"
  | Null => "null"
  | NaN => "NaN"
  | Num n => dec n
  | Str s => s
  | Arr l =>
      (fix join (l : list value) : string :=
         match l with
         | [] => ""
         | x :: r =>
             let e := match x with Undef | Null => "" | _ => toStr x end in
             match r with
             | [] => e
             | _ => e +:+ "," +:+ join r
             end
         end) l
  end%string.

(** [Number(s)] on the signed decimal integer literals and the empty string;
    every other string is taken to [NaN]. *)
Definition strToNum (s : string) : option Z :=
  match s with
  | EmptyString => Some 0
  | _ => option_map Z.of_int (NilZero.int_of_string s)
  end.

(** [Number(v)]: [None] stands for [NaN]. *)
Definition toNumber (v : value) : option Z :=
  match v with
  | Undef => None
  | Null => Some 0
  | NaN => None
  | Num n => Some n
  | Str s => strToNum s
  | Arr _ => strToNum (toStr v)
  end.

Definition ofNumber (o : option Z) : value :=
  match o with Some n => Num n | None => NaN end.

Definition numOp (f : Z -> Z -> Z) (a b : value) : value :=
  match toNumber a, toNumber b with
  | Some x, Some y => Num (f x y)
  | _, _ => NaN
  end.

Definition isStrLike (v : value) : bool :=
  match v with Str _ | Arr _ => true | _ => false end.

(** [a + b]: concatenation as soon as one operand is a string (or an array,
    whose primitive is a string), addition of numbers otherwise. *)
Definition jsAdd (a b : value) : value :=
  if isStrLike a || isStrLike b then Str (toStr a +:+ toStr b)
  else numOp Z.add a b.

Definition jsSub : value -> value -> value := numOp Z.sub.
Definition jsMul : value -> value -> value := numOp Z.mul.
Definition jsNeg (a : value) : value := ofNumber (option_map Z.opp (toNumber a)).
(** [a % b], the remainder that takes the sign of the dividend. *)
Definition jsRem (a : value) (b : Z) : value :=
  ofNumber (option_map (fun x => Z.rem x b) (toNumber a)).
(** [Math.floor(a / b)] for a positive integer constant [b]. *)
Definition floorDiv (a : value) (b : Z) : value :=
  ofNumber (option_map (fun x => x / b) (toNumber a)).

(** Comparisons against a numeric literal; any comparison with [NaN] is
    false. *)
Definition ltZ (a : value) (k : Z) : bool :=
  match toNumber a with Some x => x <? k | None => false end.
Definition gtZ (a : value) (k : Z) : bool :=
  match toNumber a with Some x => k <? x | None => false end.
Definition geZ (a : value) (k : Z) : bool :=
  match toNumber a with Some x => k <=? x | None => false end.

(** Truthiness. *)
Definition truthy (v : value) : bool :=
  match v with
  | Undef | Null | NaN => false
  | Num n => negb (n =? 0)
  | Str s => negb (String.eqb s "")
  | Arr _ => true
  end.

(** [a || b] *)
Definition jsOr (a b : value) : value := if truthy a then a else b.

(** [v === 'lit'], [v === k], [v === null] *)
Definition eqStr (v : value) (lit : string) : bool :=
  match v with Str s => String.eqb s lit | _ => false end.
Definition eqNum (v : value) (k : Z) : bool :=
  match v with Num n => n =? k | _ => false end.
Definition isNull (v : value) : bool :=
  match v with Null => true | _ => false end.

(** [v[k]] for a literal index [k]; reading past the end gives [undefined].
    Reading a property of [null] or [undefined] raises in JavaScript: every
    such read in the library is guarded by [isPitch], and the model returns
    [Undef] there. *)
Definition idx (v : value) (k : nat) : value :=
  match v with
  | Arr l => nth k l Undef
  | Str s => match String.get k s with
             | Some ch => Str (String ch EmptyString)
             | None => Undef
             end
  | _ => Undef
  end.

(** [v.length] *)
Definition len (v : value) : value :=
  match v with
  | Arr l => Num (Z.of_nat (List.length l))
  | Str s => Num (Z.of_nat (String.length s))
  | _ => Undef
  end.

(** [table[i]] for a constant table and a computed index. *)
Definition arrGet (table : list value) (i : value) : value :=
  match i with
  | Num n => if n <? 0 then Undef else nth (Z.to_nat n) table Undef
  | _ => Undef
  end.

(** ** Utilities *)

Definition isArr (v : value) : bool :=
  match v with Arr _ => true | _ => false end.
(** [typeof n === 'number'] *)
Definition isNum (n : value) : bool :=
  match n with Num _ | NaN => true | _ => false end.
Definition isStr (o : value) : bool :=
  match o with Str _ => true | _ => false end.
Definition isValue (v : value) : bool :=
  match v with Null | Undef => false | _ => true end.
Definition id (x : value) : value := x.

(** ** 1. Pitches *)

Definition tnl : value := Str "tnl".

Definition isPitch (p : value) : bool := truthy p && eqStr (idx p 0) "tnl".
Definition isPitchClass (p : value) : bool := isPitch p && eqNum (len p) 2.
Definition hasOct (p : value) : bool := isPitch p && isNum (idx p 2).
Definition isPitchNote (p : value) : bool := hasOct p && eqNum (len p) 3.
Definition isInterval (i : value) : bool := hasOct i && isNum (idx i 3).

(** *** Pitch encoding *)

Definition FIFTHS : list value := map Num [0; 2; 4; -1; 1; 3; 5].
Definition encPC (step alt : value) : value :=
  jsAdd (arrGet FIFTHS step) (jsMul (Num 7) alt).

Definition fifthsSpan (f : value) : value := floorDiv (jsMul f (Num 7)) 12.
Definition FIFTH_OCTS : list value := map fifthsSpan FIFTHS.

Definition encOct (step alt oct : value) : value :=
  jsSub (jsSub oct (arrGet FIFTH_OCTS step)) (jsMul (Num 4) alt).

Definition encode (step alt oct dir : value) : value :=
  if ltZ step 0 || gtZ step 6 then Null else
  let pc := encPC step (jsOr alt (Num 0)) in
  if negb (isNum oct) then Arr [tnl; pc] else
  let o := encOct step alt oct in
  if negb (isNum dir) then Arr [tnl; pc; o] else
  let d := if ltZ dir 0 then Num (-1) else Num 1 in
  Arr [tnl; jsMul d pc; jsMul d o; d].

Definition pitchClass (s a : value) : value := encode s a Undef Undef.
Definition notePitch (s a o : value) : value := encode s a o Undef.
Definition ivl (s a o d : value) : value := encode s a o d.

(** *** Pitch decoding *)

Definition unaltered (f : value) : value :=
  let i := jsRem (jsAdd f (Num 1)) 7 in
  if ltZ i 0 then jsAdd (Num 7) i else i.

Definition STEPS : list value := map Num [3; 0; 4; 1; 5; 2; 6].
Definition decodeStep (f : value) : value := arrGet STEPS (unaltered f).
Definition decodeAlt (f : value) : value := floorDiv (jsAdd f (Num 1)) 7.

Record decoded : Type := Decoded { step : value; alt : value; oct : value; dir : value }.

Definition decode (p : value) : decoded :=
  let s := decodeStep (idx p 1) in
  let a := decodeAlt (idx p 1) in
  let o := if isNum (idx p 2)
           then jsAdd (jsAdd (idx p 2) (jsMul (Num 4) a)) (arrGet FIFTH_OCTS s)
           else Null in
  {| step := s; alt := a; oct := o; dir := jsOr (idx p 3) Null |}.

(** ** Collaborators

    The source delegates the two text grammars to the npm packages
    note-parser and interval-notation, bound to [noteParse] and [ivlNttn].
    They are modelled below from the specification. *)

(** Longest prefix of [s] made of the character [ch], with what follows. *)
Fixpoint spanChar (ch : ascii) (s : string) : nat * string :=
  match s with
  | String a r =>
      if Ascii.eqb a ch then let (n, t) := spanChar ch r in (S n, t) else (0%nat, s)
  | EmptyString => (0%nat, s)
  end.

Definition isDigit (a : ascii) : bool :=
  let n := N_of_ascii a in (48 <=? n)%N && (n <=? 57)%N.

(** Longest prefix of decimal digits, with what follows. *)
Fixpoint spanDigits (s : string) : string * string :=
  match s with
  | String a r =>
      if isDigit a then let (d, t) := spanDigits r in (String a d, t) else (EmptyString, s)
  | EmptyString => (EmptyString, s)
  end.

(** Longest prefix without a decimal digit, with what follows. *)
Fixpoint spanQuality (s : string) : string * string :=
  match s with
  | String a r =>
      if isDigit a then (EmptyString, s) else let (q, t) := spanQuality r in (String a q, t)
  | EmptyString => (EmptyString, s)
  end.

(** [s] repeated [n] times: [Array(n + 1).join(s)]. *)
Fixpoint rep (s : string) (n : nat) : string :=
  match n with
  | O => EmptyString
  | S k => s +:+ rep s k
  end.

(** [str[i]] for a constant string and a computed index. *)
Definition strGet (s : string) (i : value) : value :=
  match i with
  | Num n => if n <? 0 then Undef else idx (Str s) (Z.to_nat n)
  | _ => Undef
  end.

Module noteParser.

Record parsed : Type := Parsed { step : value; alt : value; oct : value }.

(** Modelled from the spec: the step of a letter, 0 = C .. 6 = B
    (section 4.2). *)
Definition letterStep (a : ascii) : option Z :=
  match a with
  | "C" => Some 0 | "D" => Some 1 | "E" => Some 2 | "F" => Some 3
  | "G" => Some 4 | "A" => Some 5 | "B" => Some 6
  | _ => None
  end%char.

(** Modelled from the spec: the accidentals, a run of '#' counted
    positively or a run of 'b' counted negatively, with the text that
    follows (sections 4.2 and 6). *)
Definition accidentals (s : string) : Z * string :=
  match s with
  | String "#" _ => let (n, t) := spanChar "#" s in (Z.of_nat n, t)
  | String "b" _ => let (n, t) := spanChar "b" s in (- Z.of_nat n, t)
  | _ => (0, s)
  end.

(** Modelled from the spec: the optional signed integer octave
    (section 6); [undefined] when the text ends before it. *)
Definition octave (s : string) : option value :=
  match s with
  | EmptyString => Some Undef
  | _ => option_map (fun d => Num (Z.of_int d)) (NilZero.int_of_string s)
  end.

(** Modelled from the spec: [parse] of the npm package note-parser, a
    collaborator that is not part of the repository.  Section 6 gives its
    grammar: a letter A-G, accidentals (a run of '#' or a run of 'b'), and
    an optional signed integer octave; section 4.2 numbers the letters
    0 = C .. 6 = B and counts sharps positively, flats negatively.  Text
    outside the grammar is not parseable; [oct] is [undefined] when the
    text carries no octave. *)
Definition parse (str : string) : option parsed :=
  match str with
  | String l r =>
      match letterStep l with
      | Some st =>
          let (a, t) := accidentals r in
          match octave t with
          | Some o => Some {| step := Num st; alt := Num a; oct := o |}
          | None => None
          end
      | None => None
      end
  | EmptyString => None
  end.

End noteParser.

(** [const noteParse = require('note-parser').parse] *)
Definition noteParse : string -> option noteParser.parsed := noteParser.parse.

Module ivlNttn.

Record parsed : Type :=
  Parsed { simple : value; alt : value; oct : value; dir : value }.

(** Modelled from the spec: the class of each simple interval number, from
    unison to seventh (section 4.4). *)
Definition TYPES : string := "PMMPPMM".

(** Modelled from the spec: [type] of the npm package interval-notation,
    a collaborator that is not part of the repository.  It gives the class
    of an interval number, 'P' for the perfect class (unison, fourth,
    fifth and their compounds) and 'M' for the imperfect class
    (section 4.4). *)
Definition type (num : value) : value :=
  strGet TYPES (jsRem (jsSub num (Num 1)) 7).

(** Modelled from the spec: a quality letter repeated, as in the source's
    own [fillStr]. *)
Definition fillStr (s : string) (num : value) : value :=
  match toNumber num with
  | Some n => Str (rep s (Z.abs_nat n))
  | None => Undef
  end.

(** Modelled from the spec: [altToQ] of interval-notation, the quality
    letters of an interval number and alteration (section 4.4: perfect,
    major, minor, augmented, diminished; section 6: P, M, m, A+, d+).
    Alteration 0 is 'P' or 'M' by class, -1 is 'm' in the imperfect class,
    positive alterations are that many 'A', and negative ones are 'd',
    one fewer in the imperfect class, where minor comes first. *)
Definition altToQ (num alt : value) : value :=
  let t := type num in
  if eqNum alt 0 then (if eqStr t "M" then Str "M" else Str "P")
  else if eqNum alt (-1) && eqStr t "M" then Str "m"
  else if gtZ alt 0 then fillStr "A" alt
  else if ltZ alt 0 then fillStr "d" (if eqStr t "P" then alt else jsAdd alt (Num 1))
  else Null.

(** Modelled from the spec: the alteration a quality stands for in a
    class, the inverse of [altToQ]. *)
Definition qToAlt (t : value) (q : string) : option Z :=
  match q with
  | "P" => if eqStr t "P" then Some 0 else None
  | "M" => if eqStr t "M" then Some 0 else None
  | "m" => if eqStr t "M" then Some (-1) else None
  | String "A" _ =>
      match spanChar "A" q with
      | (n, EmptyString) => Some (Z.of_nat n)
      | _ => None
      end
  | String "d" _ =>
      match spanChar "d" q with
      | (n, EmptyString) =>
          if eqStr t "P" then Some (- Z.of_nat n)
          else if eqStr t "M" then Some (- Z.of_nat n - 1) else None
      | _ => None
      end
  | _ => None
  end%string.

(** Modelled from the spec: [parse] of interval-notation.  Section 6 gives
    the grammar: an optional '-' sign, a positive integer number, and a
    quality among P, M, m, A+, d+; its examples ("P5", "-M3", "AA4") and the
    examples in the source write the quality before the number, so both
    orders are accepted.  Section 4.3 turns the number into a simple number
    (1 to 7) plus an octave count.  Text outside the grammar, or a quality
    that the class of the number does not have, is not parseable. *)
Definition parse (str : string) : option parsed :=
  let (neg, s1) := match str with
                   | String "-" r => (true, r)
                   | _ => (false, str)
                   end in
  let (ds, q) := match spanDigits s1 with
                 | (EmptyString, _) => let (q, ds) := spanQuality s1 in (ds, q)
                 | (ds, q) => (ds, q)
                 end in
  match NilZero.uint_of_string ds with
  | Some u =>
      let num := Z.of_uint u in
      if num <? 1 then None else
      match qToAlt (type (Num num)) q with
      | Some a =>
          Some {| simple := Num ((num - 1) mod 7 + 1);
                  alt := Num a;
                  oct := Num ((num - 1) / 7);
                  dir := Num (if neg then -1 else 1) |}
      | None => None
      end
  | None => None
  end.

End ivlNttn.

(** ** The parse cache

    [cache] is a process-wide object used as a map from input text to parsed
    pitch; both parsers share it.  Only its own entries are modelled, not the
    properties an empty object inherits. *)

Abbreviation cache := (gmap string value).

Definition M (A : Type) : Type := cache -> A * cache.
Definition ret {A : Type} (a : A) : M A := fun c => (a, c).
Definition bind {A B : Type} (m : M A) (k : A -> M B) : M B :=
  fun c => let (a, c') := m c in k a c'.

Notation "x <- m ;; k" := (bind m (fun x => k))
  (at level 100, m at next level, right associativity).

Definition cached (parser : string -> value) (str : value) : M value :=
  fun c =>
    match str with
    | Str s =>
        let hit := match c !! s with Some v => v | None => Undef end in
        if truthy hit then (hit, c)
        else let r := parser s in (r, <[s := r]> c)
    | _ => (Null, c)
    end.

(** The parser that [parseNote] caches. *)
Definition noteOf (str : string) : value :=
  match noteParse str with
  | Some n => notePitch (noteParser.step n) (noteParser.alt n) (noteParser.oct n)
  | None => Null
  end.

Definition parseNote : value -> M value := cached noteOf.

Definition isNoteStr (s : value) : M bool :=
  n <- parseNote s ;; ret (negb (isNull n)).

(** The parser that [parseIvl] caches. *)
Definition ivlOf (str : string) : value :=
  match ivlNttn.parse str with
  | Some i => ivl (jsSub (ivlNttn.simple i) (Num 1))
                  (ivlNttn.alt i) (ivlNttn.oct i) (ivlNttn.dir i)
  | None => Null
  end.

Definition parseIvl : value -> M value := cached ivlOf.

Definition parsePitch (str : value) : M value :=
  n <- parseNote str ;; if truthy n then ret n else parseIvl str.

(** *** Pitch to string *)

Definition toLetter (s : value) : value := strGet "CDEFGAB" (jsRem s 7).
(** [Array(Math.abs(num) + 1).join(s)].  JavaScript raises a RangeError when
    [num] is [NaN], which happens only for an array whose fifths entry is not
    a number; the model returns [Undef] there. *)
Definition fillStr (s : string) (num : value) : value :=
  match toNumber num with
  | Some n => Str (rep s (Z.abs_nat n))
  | None => Undef
  end.
Definition toAcc (n : value) : value := fillStr (if ltZ n 0 then "b" else "#") n.
Definition strNum (n : value) : value := if negb (isNull n) then n else Str "".

Definition strNote (n : value) : value :=
  let p := if isPitch n && negb (truthy (idx n 3)) then Some (decode n) else None in
  match p with
  | Some p => jsAdd (jsAdd (toLetter (step p)) (toAcc (alt p))) (strNum (oct p))
  | None => Null
  end.

Definition isAsc (p : decoded) : bool := eqNum (dir p) 1.
Definition isPerf (p : decoded) : bool :=
  eqStr (ivlNttn.type (jsAdd (step p) (Num 1))) "P".
Definition calcNum (p : decoded) : value :=
  if isAsc p then jsAdd (jsAdd (step p) (Num 1)) (jsMul (Num 7) (oct p))
  else jsSub (jsSub (Num 8) (step p)) (jsMul (Num 7) (jsAdd (oct p) (Num 1))).
Definition calcAlt (p : decoded) : value :=
  if isAsc p then alt p
  else if isPerf p then jsNeg (alt p) else jsNeg (jsAdd (alt p) (Num 1)).

Definition strIvl (pitch : value) : value :=
  let p := if isInterval pitch then Some (decode pitch) else None in
  match p with
  | None => Null
  | Some p =>
      let num := calcNum p in
      jsAdd (jsMul (dir p) num) (ivlNttn.altToQ num (calcAlt p))
  end.

Definition strPitch (p : value) : value :=
  if truthy (idx p 3) then strIvl p else strNote p.

(** *** Decorate pitch transform functions *)

Definition notation {T : Type} (parse str : value -> T) (v : value) : T :=
  if negb (isPitch v) then parse v else str v.

Definition asNote : value -> M value := notation parseNote (fun v => ret (id v)).
Definition asIvl : value -> M value := notation parseIvl (fun v => ret (id v)).
Definition asPitch : value -> M value := notation parsePitch (fun v => ret (id v)).

Definition toNoteStr : value -> value := notation id strNote.
Definition toIvlStr : value -> value := notation id strIvl.
Definition toPitchStr : value -> value := notation id strPitch.

Definition pitchOp (parse : value -> M value) (to : value -> value)
    (fn : value -> M value) (v : value) : M value :=
  if isPitch v then fn v
  else p <- parse v ;;
       if truthy p then r <- fn p ;; ret (to r) else ret Null.

Definition noteFn := pitchOp parseNote toNoteStr.
Definition ivlFn := pitchOp parseIvl toIvlStr.
Definition pitchFn := pitchOp parsePitch toPitchStr.

(** *** Pitch properties *)

Definition simplify : value -> M value :=
  ivlFn (fun i =>
    let d := idx i 3 in
    let s := decodeStep (jsMul d (idx i 1)) in
    let a := decodeAlt (jsMul d (idx i 1)) in
    ret (Arr [tnl; idx i 1;
              jsMul (jsNeg d) (jsAdd (arrGet FIFTH_OCTS s) (jsMul (Num 4) a)); d])).

Definition simplifyAsc : value -> M value :=
  ivlFn (fun i =>
    s <- simplify i ;;
    ret (if eqNum (idx s 3) 1 then s
         else Arr [tnl; idx s 1; jsAdd (idx s 2) (Num 1); Num 1])).

Definition number : value -> M value :=
  ivlFn (fun i => ret (calcNum (decode i))).

Definition height (p : value) : value :=
  jsAdd (jsMul (idx p 1) (Num 7)) (jsMul (Num 12) (idx p 2)).

(** *** Midi pitch numbers *)

Definition isMidi (m : value) : bool :=
  isValue m && negb (isArr m) && geZ m 0 && ltZ m 128.

Definition midi (val : value) : M value :=
  p <- asNote val ;;
  ret (if hasOct p then jsAdd (height p) (Num 12)
       else if isMidi val then ofNumber (toNumber val)
       else Null).

(** *** Frequency conversions

    [Math.pow(2, (m - 69) / 12) * ref] is taken over the real numbers;
    [None] is the [null] result. *)
Definition wellTempered (ref : R) (pitch : value) : M (option R) :=
  m <- midi pitch ;;
  ret (if truthy m
       then match toNumber m with
            | Some n => Some (Rpower 2 ((IZR n - 69) / 12) * ref)%R
            | None => None
            end
       else None).

Definition toFreq : value -> M (option R) := wellTempered 440%R.

(** ** 2. Pitch distances *)

Definition calcDir (f o : value) : value :=
  if ltZ (jsAdd (jsMul (Num 7) f) (jsMul (Num 12) o)) 0 then Num (-1) else Num 1.

Definition trBy (i p : value) : value :=
  if isNull p then Null else
  let f := jsAdd (idx i 1) (idx p 1) in
  if eqNum (len p) 2 then Arr [tnl; f] else
  let o := jsAdd (idx i 2) (idx p 2) in
  if eqNum (len p) 3 then Arr [tnl; f; o] else
  Arr [tnl; f; o; calcDir f o].

(** The two-argument call; with one argument the source returns the
    function awaiting the second. *)
Definition transpose (a b : value) : M value :=
  pa <- asPitch a ;;
  pb <- asPitch b ;;
  let r := if isInterval pa then trBy pa pb
           else if isInterval pb then trBy pb pa else Null in
  ret (toPitchStr r).

Definition tr := transpose.

Definition ivlp (f o : value) : value := Arr [tnl; f; o; calcDir f o].
Definition are (type : value -> bool) (a b : value) : bool := type a && type b.

Definition substr (a b : value) : M value :=
  if are isPitchClass a b then simplifyAsc (ivlp (jsSub (idx b 1) (idx a 1)) (Num 0))
  else if are isPitchNote a b
       then ret (ivlp (jsSub (idx b 1) (idx a 1)) (jsSub (idx b 2) (idx a 2)))
  else if are isInterval a b
       then ret (ivlp (jsSub (idx b 1) (idx a 1)) (jsSub (idx b 2) (idx a 2)))
  else ret Null.

Definition distance (a b : value) : M value :=
  pa <- asPitch a ;;
  pb <- asPitch b ;;
  r <- substr pa pb ;;
  ret (toIvlStr r).

Definition dist := distance.
Definition interval := distance.

(** ** The rest of the library *)

(** *** Pitch properties (continued) *)

Definition sci : value -> M value := noteFn (fun v => ret (id v)).

Definition pc : value -> M value := noteFn (fun p => ret (Arr [tnl; idx p 1])).

Definition chroma : value -> M value :=
  noteFn (fun n =>
    ret (jsSub (jsMul (idx n 1) (Num 7))
               (jsMul (floorDiv (jsMul (idx n 1) (Num 7)) 12) (Num 12)))).

Definition letter : value -> M value :=
  noteFn (fun n => ret (toLetter (step (decode n)))).

Definition accidentals : value -> M value :=
  noteFn (fun n => ret (toAcc (alt (decode n)))).

Definition octave : value -> M value :=
  pitchFn (fun p => ret (oct (decode p))).

Definition simpleNum : value -> M value :=
  ivlFn (fun i => let p := decode i in ret (jsAdd (step p) (Num 1))).

Definition quality : value -> M value :=
  ivlFn (fun i =>
    let p := decode i in ret (ivlNttn.altToQ (jsAdd (step p) (Num 1)) (alt p))).

Definition semitones : value -> M value := ivlFn (fun i => ret (height i)).

(** *** Chromatic note names *)

Definition CHROMATIC : list value :=
  [Num 0; Null; Num 1; Null; Num 2; Num 3; Null; Num 4; Null; Num 5; Null; Num 6].
Definition midiStep (m : value) : value := arrGet CHROMATIC (jsRem m 12).

(** [useSharps] is documented as a Boolean and only tested for truth. *)
Definition chromatic (useSharps : bool) (m : value) : value :=
  let step := midiStep m in
  let o := jsSub (floorDiv m 12) (Num 1) in
  let n := if negb (isNull step) then notePitch step (Num 0) o
           else if useSharps then notePitch (midiStep (jsSub m (Num 1))) (Num 1) o
           else notePitch (midiStep (jsAdd m (Num 1))) (Num (-1)) o in
  strNote n.

Definition fromMidi : value -> value := chromatic false.

(** ** 3. Lists *)

(** White space of the ASCII range, as [\s] and [trim] see it. *)
Definition isSpace (a : ascii) : bool :=
  let n := N_of_ascii a in ((9 <=? n)%N && (n <=? 13)%N) || (n =? 32)%N.
Definition isDelim (a : ascii) : bool :=
  Ascii.eqb a "|" || Ascii.eqb a ",".

Fixpoint trimStart (s : string) : string :=
  match s with
  | String a r => if isSpace a then trimStart r else s
  | EmptyString => EmptyString
  end.
Fixpoint trimEnd (s : string) : string :=
  match s with
  | EmptyString => EmptyString
  | String a r =>
      match trimEnd r with
      | EmptyString => if isSpace a then EmptyString else String a EmptyString
      | t => String a t
      end
  end.
(** [s.trim()] *)
Definition trim (s : string) : string := trimEnd (trimStart s).

(** [s.split(SEP)] for [SEP = /\s*\|\s*|\s*,\s*|\s+/], read one character at
    a time.  A separator is a run of white space, then at most one bar or
    comma, then white space; [InTok] is inside an item, [InWs] in the white
    space that opens a separator, [InTr] after its bar or comma.  [acc] is
    the item read so far. *)
Inductive splitState : Type := InTok | InWs | InTr.
Fixpoint splitSEP (st : splitState) (acc : string) (s : string) : list string :=
  match s with
  | EmptyString => [acc]
  | String a r =>
      match st with
      | InTok =>
          if isSpace a then acc :: splitSEP InWs EmptyString r
          else if isDelim a then acc :: splitSEP InTr EmptyString r
          else splitSEP InTok (acc +:+ String a EmptyString) r
      | InWs =>
          if isSpace a then splitSEP InWs EmptyString r
          else if isDelim a then splitSEP InTr EmptyString r
          else splitSEP InTok (String a EmptyString) r
      | InTr =>
          if isSpace a then splitSEP InTr EmptyString r
          else if isDelim a then EmptyString :: splitSEP InTr EmptyString r
          else splitSEP InTok (String a EmptyString) r
      end
  end.

Definition listArr (src : value) : value :=
  if isArr src then src
  else match src with
       | Str s => Arr (map Str (splitSEP InTok EmptyString (trim s)))
       | Null | Undef => Arr []
       | _ => Arr [src]
       end.

(** The elements of an array; a value that is not an array has none. *)
Definition elems (v : value) : list value :=
  match v with Arr l => l | _ => [] end.

(** [l.map(f)] for an [f] that may consult the cache, front to back. *)
Fixpoint mapM (f : value -> M value) (l : list value) : M (list value) :=
  match l with
  | [] => ret []
  | x :: r => y <- f x ;; ys <- mapM f r ;; ret (y :: ys)
  end.

(** *** Transform lists

    The source's [map], [filter] and [sort] are not embedded: [filter] is an
    arrow function that reads [arguments], which is not its own, and [sort]
    rests on the engine's [Array.prototype.sort]; [map] is [listArr]
    followed by the array's own [map]. *)

Definition listToStr (v : value) : value :=
  if isPitch v then toPitchStr v
  else if isArr v then Arr (map toPitchStr (elems v))
  else v.

Definition transform (fn : value -> M value) (src : value) : M value :=
  param <- mapM asPitch (elems (listArr src)) ;;
  result <- fn (Arr param) ;;
  ret (listToStr result).

(** *** Transpose lists *)

Definition harmonizer (list pitch : value) : M value :=
  transform (fun list =>
    r <- mapM (transpose pitch) (elems list) ;;
    ret (Arr (List.filter truthy r))) list.

(** The two-argument call. *)
Definition harmonize (list pitch : value) : M value := harmonizer list pitch.

(** *** Sort lists *)

(** The heights that [objHeight] and the comparators compute: a value of the
    library, or an infinity. *)
Inductive hnum : Type := NegInf | PosInf | Fin (v : value).

Definition objHeight (p : value) : hnum :=
  if negb (truthy p) then NegInf else
  let f := jsMul (idx p 1) (Num 7) in
  let o := if isNum (idx p 2) then idx p 2
           else jsSub (jsNeg (floorDiv f 12)) (Num 10) in
  Fin (jsAdd f (jsMul o (Num 12))).

(** [x - y] on heights. *)
Definition hsub (x y : hnum) : hnum :=
  match x, y with
  | NegInf, NegInf | PosInf, PosInf => Fin NaN
  | NegInf, PosInf => NegInf
  | PosInf, NegInf => PosInf
  | NegInf, Fin v => match toNumber v with Some _ => NegInf | None => Fin NaN end
  | PosInf, Fin v => match toNumber v with Some _ => PosInf | None => Fin NaN end
  | Fin v, NegInf => match toNumber v with Some _ => PosInf | None => Fin NaN end
  | Fin v, PosInf => match toNumber v with Some _ => NegInf | None => Fin NaN end
  | Fin v, Fin w => Fin (jsSub v w)
  end.
(** [- x] *)
Definition hneg (x : hnum) : hnum :=
  match x with NegInf => PosInf | PosInf => NegInf | Fin v => Fin (jsNeg v) end.
(** [x < 0] *)
Definition hneg0 (x : hnum) : bool :=
  match x with NegInf => true | PosInf => false | Fin v => ltZ v 0 end.

Definition ascComp (a b : value) : hnum := hsub (objHeight a) (objHeight b).
Definition descComp (a b : value) : hnum := hneg (ascComp a b).

Definition maxP (a b : value) : value := if hneg0 (ascComp a b) then b else a.
Definition max : value -> M value :=
  transform (fun list => ret (fold_left maxP (elems list) Null)).

(** * Definitions for the statements *)

(** The three tables as functions on integers. *)
Definition fifthsZ (s : Z) : Z :=
  match s with 0 => 0 | 1 => 2 | 2 => 4 | 3 => -1 | 4 => 1 | 5 => 3 | 6 => 5 | _ => 0 end.
Definition spanZ (s : Z) : Z :=
  match s with 0 => 0 | 1 => 1 | 2 => 2 | 3 => -1 | 4 => 0 | 5 => 1 | 6 => 2 | _ => 0 end.
Definition stepZ (r : Z) : Z :=
  match r with 0 => 3 | 1 => 0 | 2 => 4 | 3 => 1 | 4 => 5 | 5 => 2 | 6 => 6 | _ => 0 end.

Ltac seven s :=
  let H := fresh in
  assert (H : s = 0 \/ s = 1 \/ s = 2 \/ s = 3 \/ s = 4 \/ s = 5 \/ s = 6) by lia;
  destruct H as [H|[H|[H|[H|[H|[H|H]]]]]]; rewrite H in *.

(** The perfect class of simple steps: unison, fourth and fifth. *)
Definition perfZ (s : Z) : bool := (s =? 0) || (s =? 3) || (s =? 4).

(** The pitch a text stands for: a note if the text is a note name,
    otherwise an interval, otherwise null. *)
Definition pitchOf (s : string) : value := jsOr (noteOf s) (ivlOf s).

(** A consistent cache: every entry that counts as a hit is the pitch its
    key stands for.  The empty cache of a fresh process is consistent, and
    [parseNote] and [parsePitch] keep it so. *)
Definition cache_ok (c : cache) : Prop :=
  forall s v, c !! s = Some v -> truthy v = true -> v = pitchOf s.

(** The pitch an operand stands for: itself if it is a pitch, what its text
    parses to otherwise. *)
Definition asPitchVal (v : value) : value :=
  if isPitch v then v else match v with Str s => pitchOf s | _ => Null end.

(** [transpose] and [distance] on the pitches the operands stand for. *)
Definition transposeVal (a b : value) : value :=
  let pa := asPitchVal a in
  let pb := asPitchVal b in
  toPitchStr (if isInterval pa then trBy pa pb
              else if isInterval pb then trBy pb pa else Null).

Definition substrVal (a b : value) : value := fst (substr a b ∅).

Definition distanceVal (a b : value) : value :=
  toIvlStr (substrVal (asPitchVal a) (asPitchVal b)).

(** The first character of a text, if any, fails the test [P]. *)
Definition headNot (P : ascii -> bool) (s : string) : Prop :=
  match s with String a _ => P a = false | EmptyString => True end.

(** A text that begins with a digit or a minus sign. *)
Definition textHead (s : string) : Prop :=
  exists a r, s = String a r /\ (isDigit a = true \/ a = "-"%char).

(** A character of a list item: ASCII, not white space, neither bar nor
    comma. *)
Definition isItemChar (a : ascii) : bool :=
  (N_of_ascii a <? 128)%N && negb (isSpace a) && negb (isDelim a).

(** An item: a text that is not empty and made of item characters. *)
Fixpoint isItem (s : string) : bool :=
  match s with
  | EmptyString => false
  | String a EmptyString => isItemChar a
  | String a r => isItemChar a && isItem r
  end.

(** A separator as users write it: [n] blanks, then a bar, a comma or
    nothing, then [m] blanks. *)
Definition sepText (n : nat) (d : string) (m : nat) : string :=
  rep " " n +:+ d +:+ rep " " m.
Definition isSepText (n : nat) (d : string) (m : nat) : Prop :=
  (d = "|" \/ d = "," \/ (d = "" /\ (0 < n + m)%nat))%string.

(** The items written one after the other with [sep] in between. *)
Fixpoint joinSep (sep : string) (items : list string) : string :=
  match items with
  | [] => EmptyString
  | [x] => x
  | x :: r => x +:+ sep +:+ joinSep sep r
  end.

(** The Note array of a pair of coordinates, and its height in semitones. *)
Definition noteArr (fo : Z * Z) : value := Arr [tnl; Num (fst fo); Num (snd fo)].
Definition semis (fo : Z * Z) : Z := 7 * fst fo + 12 * snd fo.

(** * Properties *)

(** ** Operators on numbers *)

Lemma jsAdd_num a b : jsAdd (Num a) (Num b) = Num (a + b).
Proof. reflexivity. Qed.
Lemma jsSub_num a b : jsSub (Num a) (Num b) = Num (a - b).
Proof. reflexivity. Qed.
Lemma jsMul_num a b : jsMul (Num a) (Num b) = Num (a * b).
Proof. reflexivity. Qed.
Lemma jsNeg_num a : jsNeg (Num a) = Num (- a).
Proof. reflexivity. Qed.
Lemma jsRem_num a b : jsRem (Num a) b = Num (Z.rem a b).
Proof. reflexivity. Qed.
Lemma floorDiv_num a b : floorDiv (Num a) b = Num (a / b).
Proof. reflexivity. Qed.
Lemma ltZ_num a k : ltZ (Num a) k = (a <? k).
Proof. reflexivity. Qed.
Lemma gtZ_num a k : gtZ (Num a) k = (k <? a).
Proof. reflexivity. Qed.
Lemma geZ_num a k : geZ (Num a) k = (k <=? a).
Proof. reflexivity. Qed.
Lemma eqNum_num a k : eqNum (Num a) k = (a =? k).
Proof. reflexivity. Qed.
Lemma jsOr_num0 a : jsOr (Num a) (Num 0) = Num a.
Proof.
  unfold jsOr; simpl. destruct (Z.eqb_spec a 0) as [->|]; reflexivity.
Qed.
Lemma jsAdd_num_str a s : jsAdd (Num a) (Str s) = Str (dec a +:+ s).
Proof. reflexivity. Qed.
Lemma jsAdd_str_str s t : jsAdd (Str s) (Str t) = Str (s +:+ t).
Proof. reflexivity. Qed.
Lemma jsAdd_str_num s a : jsAdd (Str s) (Num a) = Str (s +:+ dec a).
Proof. reflexivity. Qed.

Create Rewrite HintDb js.
#[local] Hint Rewrite jsAdd_num jsSub_num jsMul_num jsNeg_num jsRem_num
  floorDiv_num ltZ_num gtZ_num geZ_num eqNum_num jsOr_num0
  jsAdd_num_str jsAdd_str_str jsAdd_str_num : js.

(** ** The tables *)

Lemma FIFTHS_get s : 0 <= s <= 6 -> arrGet FIFTHS (Num s) = Num (fifthsZ s).
Proof. intros Hs. seven s; reflexivity. Qed.
Lemma FIFTH_OCTS_get s : 0 <= s <= 6 -> arrGet FIFTH_OCTS (Num s) = Num (spanZ s).
Proof. intros Hs. seven s; reflexivity. Qed.
Lemma STEPS_get r : 0 <= r <= 6 -> arrGet STEPS (Num r) = Num (stepZ r).
Proof. intros Hr. seven r; reflexivity. Qed.

Lemma stepZ_range r : 0 <= stepZ r <= 6.
Proof.
  unfold stepZ. destruct r as [|p|p]; try lia.
  do 3 (try destruct p as [p|p|]; try lia).
Qed.

Lemma unaltered_num f : unaltered (Num f) = Num ((f + 1) mod 7).
Proof.
  unfold unaltered. autorewrite with js.
  pose proof (Z.rem_bound_abs (f + 1) 7 ltac:(lia)) as Hb.
  pose proof (Z.quot_rem' (f + 1) 7) as Hq.
  destruct (Z.ltb_spec (Z.rem (f + 1) 7) 0) as [Hneg|Hpos]; autorewrite with js; f_equal.
  - apply Z.mod_unique with (q := Z.quot (f + 1) 7 - 1); lia.
  - apply Z.mod_unique with (q := Z.quot (f + 1) 7); lia.
Qed.

Lemma decodeStep_num f : decodeStep (Num f) = Num (stepZ ((f + 1) mod 7)).
Proof.
  unfold decodeStep. rewrite unaltered_num. apply STEPS_get.
  pose proof (Z.mod_pos_bound (f + 1) 7). lia.
Qed.

Lemma decodeAlt_num f : decodeAlt (Num f) = Num ((f + 1) / 7).
Proof. reflexivity. Qed.

(** ** Encoding and decoding on numbers *)

Lemma encode_pc s a :
  0 <= s <= 6 ->
  encode (Num s) (Num a) Undef Undef = Arr [tnl; Num (fifthsZ s + 7 * a)].
Proof.
  intros Hs. unfold encode, encPC. autorewrite with js.
  rewrite FIFTHS_get by lia.
  destruct (Z.ltb_spec s 0); [lia|]. destruct (Z.ltb_spec 6 s); [lia|].
  reflexivity.
Qed.

Lemma encode_note s a o :
  0 <= s <= 6 ->
  encode (Num s) (Num a) (Num o) Undef =
  Arr [tnl; Num (fifthsZ s + 7 * a); Num (o - spanZ s - 4 * a)].
Proof.
  intros Hs. unfold encode, encPC, encOct. autorewrite with js.
  rewrite FIFTHS_get, FIFTH_OCTS_get by lia.
  destruct (Z.ltb_spec s 0); [lia|]. destruct (Z.ltb_spec 6 s); [lia|].
  reflexivity.
Qed.

Lemma encode_ivl s a o d :
  0 <= s <= 6 ->
  encode (Num s) (Num a) (Num o) (Num d) =
  let e := if d <? 0 then -1 else 1 in
  Arr [tnl; Num (e * (fifthsZ s + 7 * a)); Num (e * (o - spanZ s - 4 * a)); Num e].
Proof.
  intros Hs. unfold encode, encPC, encOct. autorewrite with js.
  rewrite FIFTHS_get, FIFTH_OCTS_get by lia.
  destruct (Z.ltb_spec s 0); [lia|]. destruct (Z.ltb_spec 6 s); [lia|].
  destruct (d <? 0); reflexivity.
Qed.

Lemma decode_pc f :
  decode (Arr [tnl; Num f]) =
  {| step := Num (stepZ ((f + 1) mod 7)); alt := Num ((f + 1) / 7);
     oct := Null; dir := Null |}.
Proof.
  unfold decode. simpl idx. rewrite decodeStep_num, decodeAlt_num. reflexivity.
Qed.

Lemma decode_note f o :
  decode (Arr [tnl; Num f; Num o]) =
  {| step := Num (stepZ ((f + 1) mod 7)); alt := Num ((f + 1) / 7);
     oct := Num (o + 4 * ((f + 1) / 7) + spanZ (stepZ ((f + 1) mod 7)));
     dir := Null |}.
Proof.
  unfold decode. simpl idx. rewrite decodeStep_num, decodeAlt_num.
  rewrite FIFTH_OCTS_get by apply stepZ_range. reflexivity.
Qed.

Lemma decode_ivl f o d :
  d <> 0 ->
  decode (Arr [tnl; Num f; Num o; Num d]) =
  {| step := Num (stepZ ((f + 1) mod 7)); alt := Num ((f + 1) / 7);
     oct := Num (o + 4 * ((f + 1) / 7) + spanZ (stepZ ((f + 1) mod 7)));
     dir := Num d |}.
Proof.
  intros Hd. unfold decode. simpl idx. rewrite decodeStep_num, decodeAlt_num.
  rewrite FIFTH_OCTS_get by apply stepZ_range.
  unfold jsOr; simpl truthy. destruct (Z.eqb_spec d 0); [lia|]. reflexivity.
Qed.

(** The line of fifths: a fifths coordinate is [7 * alt + r - 1] for the
    residue [r] of its step, and conversely. *)

Lemma fifths_split f : f = 7 * ((f + 1) / 7) + (f + 1) mod 7 - 1.
Proof. pose proof (Z.div_mod (f + 1) 7). lia. Qed.

Lemma fifths_of_step_alt s a :
  0 <= s <= 6 ->
  (fifthsZ s + 7 * a + 1) mod 7 = fifthsZ s + 1 /\
  (fifthsZ s + 7 * a + 1) / 7 = a.
Proof.
  intros Hs.
  assert (Hr : 0 <= fifthsZ s + 1 < 7) by (seven s; simpl; lia).
  split.
  - symmetry. apply Z.mod_unique with (q := a); lia.
  - symmetry. apply Z.div_unique with (r := fifthsZ s + 1); lia.
Qed.

Lemma stepZ_fifthsZ s : 0 <= s <= 6 -> stepZ (fifthsZ s + 1) = s.
Proof. intros Hs. seven s; reflexivity. Qed.

Lemma fifthsZ_stepZ r : 0 <= r <= 6 -> fifthsZ (stepZ r) = r - 1.
Proof. intros Hr. seven r; reflexivity. Qed.

Lemma decode_encode_note s a o :
  0 <= s <= 6 ->
  decode (encode (Num s) (Num a) (Num o) Undef) =
  {| step := Num s; alt := Num a; oct := Num o; dir := Null |}.
Proof.
  intros Hs. rewrite encode_note, decode_note by lia.
  destruct (fifths_of_step_alt s a Hs) as [-> ->].
  rewrite stepZ_fifthsZ by lia. do 3 f_equal. lia.
Qed.

Lemma encode_decode_fifths f :
  fifthsZ (stepZ ((f + 1) mod 7)) + 7 * ((f + 1) / 7) = f.
Proof.
  pose proof (Z.mod_pos_bound (f + 1) 7 ltac:(lia)).
  rewrite fifthsZ_stepZ by lia. pose proof (fifths_split f). lia.
Qed.

(** C1: decoding an encoded (step, alteration, octave) gives the triple back,
    with a null direction, for steps 0..6, alterations -4..4 and octaves
    -2..9. *)
Theorem decode_encode_roundtrip (s a o : Z) :
  0 <= s <= 6 -> -4 <= a <= 4 -> -2 <= o <= 9 ->
  decode (encode (Num s) (Num a) (Num o) Undef) =
  {| step := Num s; alt := Num a; oct := Num o; dir := Null |}.
Proof. intros Hs _ _. apply decode_encode_note, Hs. Qed.

Lemma decode_encode_roundtrip_witness :
  decode (encode (Num 6) (Num (-4)) (Num 9) Undef) =
  {| step := Num 6; alt := Num (-4); oct := Num 9; dir := Null |}.
Proof. apply (decode_encode_roundtrip 6 (-4) 9); lia. Defined.

(** A descending interval stores the negated coordinates, and [decode] reads
    them as they are: it returns the inversion of the interval, which the
    serializer turns back with [calcNum] and [calcAlt]. *)

Lemma neg_fifths s a :
  0 <= s <= 6 ->
  (-1 * (fifthsZ s + 7 * a) + 1) mod 7 = (1 - fifthsZ s) mod 7 /\
  (-1 * (fifthsZ s + 7 * a) + 1) / 7 = (1 - fifthsZ s) / 7 - a.
Proof.
  intros Hs.
  pose proof (Z.div_mod (1 - fifthsZ s) 7 ltac:(lia)) as Hdm.
  pose proof (Z.mod_pos_bound (1 - fifthsZ s) 7 ltac:(lia)) as Hb.
  split.
  - symmetry. apply Z.mod_unique with (q := (1 - fifthsZ s) / 7 - a); lia.
  - symmetry. apply Z.div_unique with (r := (1 - fifthsZ s) mod 7); lia.
Qed.

Lemma decode_encode_desc s a o :
  0 <= s <= 6 ->
  let p := decode (encode (Num s) (Num a) (Num o) (Num (-1))) in
  dir p = Num (-1) /\ step p = Num ((7 - s) mod 7) /\
  calcNum p = Num (s + 1 + 7 * o) /\ calcAlt p = Num a.
Proof.
  intros Hs p. subst p. rewrite encode_ivl by lia. simpl (if _ <? _ then _ else _).
  cbv zeta. rewrite decode_ivl by lia.
  destruct (neg_fifths s a Hs) as [-> ->].
  unfold calcNum, calcAlt, isAsc, isPerf. simpl dir. simpl step. simpl alt. simpl oct.
  seven s; vm_compute ((1 - fifthsZ _) mod 7); vm_compute ((1 - fifthsZ _) / 7);
    vm_compute (stepZ _); vm_compute (spanZ _); vm_compute ((7 - _) mod 7);
    autorewrite with js; vm_compute (eqStr _ _); vm_compute (_ =? _);
    cbv iota; autorewrite with js;
    repeat split; f_equal; lia.
Qed.

Lemma decode_encode_asc s a o :
  0 <= s <= 6 ->
  decode (encode (Num s) (Num a) (Num o) (Num 1)) =
  {| step := Num s; alt := Num a; oct := Num o; dir := Num 1 |}.
Proof.
  intros Hs. rewrite encode_ivl by lia. simpl (if _ <? _ then _ else _).
  cbv zeta. rewrite decode_ivl by lia.
  replace (1 * (fifthsZ s + 7 * a)) with (fifthsZ s + 7 * a) by lia.
  destruct (fifths_of_step_alt s a Hs) as [-> ->].
  rewrite stepZ_fifthsZ by lia. do 3 f_equal. lia.
Qed.




(** ** Shapes *)

Lemma isInterval_isPitch i : isInterval i = true -> isPitch i = true.
Proof.
  unfold isInterval, hasOct. intros H.
  apply andb_true_iff in H as [H _]. apply andb_true_iff in H as [H _]. exact H.
Qed.

Lemma isPitchClass_isPitch p : isPitchClass p = true -> isPitch p = true.
Proof. unfold isPitchClass. intros H. apply andb_true_iff in H as [H _]. exact H. Qed.


Lemma isPitch_Arr p : isPitch p = true -> exists l, p = Arr (tnl :: l).
Proof.
  unfold isPitch. destruct p as [| | |n|s|l]; simpl; try discriminate.
  - rewrite andb_false_r. discriminate.
  - destruct s as [|ch s]; simpl; [discriminate|].
    destruct (Ascii.eqb ch "t"); rewrite ?andb_false_r; discriminate.
  - destruct l as [|x l]; simpl; [discriminate|].
    unfold eqStr. destruct x; try discriminate.
    intros H. apply String.eqb_eq in H. subst. eauto.
Qed.

Lemma asPitch_pitch p c : isPitch p = true -> asPitch p c = (p, c).
Proof. intros H. unfold asPitch, notation. rewrite H. reflexivity. Qed.

Lemma asNote_pitch p c : isPitch p = true -> asNote p c = (p, c).
Proof. intros H. unfold asNote, notation. rewrite H. reflexivity. Qed.



(** ** Serializing outside the variant *)

Lemma toLetter_step s :
  0 <= s <= 6 ->
  exists ch, toLetter (Num s) = Str (String ch EmptyString) /\
             noteParser.letterStep ch = Some s.
Proof. intros Hs. seven s; eexists; split; reflexivity. Qed.

Lemma toAcc_num a :
  toAcc (Num a) = Str (rep (if a <? 0 then "b" else "#") (Z.abs_nat a)).
Proof. unfold toAcc, fillStr. rewrite ltZ_num. reflexivity. Qed.

Lemma strNote_pc f :
  exists ch,
    noteParser.letterStep ch = Some (stepZ ((f + 1) mod 7)) /\
    strNote (Arr [tnl; Num f]) =
    Str ((String ch EmptyString +:+
          rep (if (f + 1) / 7 <? 0 then "b" else "#") (Z.abs_nat ((f + 1) / 7))) +:+ "").
Proof.
  destruct (toLetter_step _ (stepZ_range ((f + 1) mod 7))) as (ch & Hl & Hs).
  exists ch. split; [exact Hs|].
  unfold strNote. change (isPitch _ && negb _) with true. cbv iota.
  rewrite decode_pc. simpl step. simpl alt. simpl oct.
  rewrite Hl, toAcc_num. reflexivity.
Qed.

Lemma strNote_bare_pitch_class_counterexample :
  isPitchNote (Arr [tnl; Num 0]) = false /\
  isInterval (Arr [tnl; Num 0]) = false /\
  strNote (Arr [tnl; Num 0]) = Str "C" /\
  strPitch (Arr [tnl; Num 0]) = Str "C" /\
  strNote (Arr [tnl; Num 0]) <> Null.
Proof. repeat split; try reflexivity. vm_compute. discriminate. Qed.

(** C9 (amended): the interval serializer returns null for every value that
    is not an Interval, and the note serializer returns null for every
    Interval; a bare Pitch Class is serialized by the note serializer, and by
    [strPitch], to its letter and accidentals with the octave left out: the
    Pitch Class encoded from step [s] and alteration [a] is written as the
    letter at place [s] of CDEFGAB followed by [a] sharps, or by [-a] flats
    when [a] is negative, and nothing else; every Pitch Class with an integer
    fifths coordinate is one of these. *)
Theorem serializers_outside_variant :
  (forall p, isInterval p = false -> strIvl p = Null) /\
  (forall f o d, d <> 0 -> strNote (Arr [tnl; Num f; Num o; Num d]) = Null) /\
  (forall s a, 0 <= s <= 6 ->
     exists ch,
       String.get (Z.to_nat s) "CDEFGAB" = Some ch /\
       strNote (encode (Num s) (Num a) Undef Undef) =
         Str (String ch (rep (if a <? 0 then "b" else "#") (Z.abs_nat a))) /\
       strPitch (encode (Num s) (Num a) Undef Undef) =
         Str (String ch (rep (if a <? 0 then "b" else "#") (Z.abs_nat a)))) /\
  (forall f, exists s a,
     0 <= s <= 6 /\ Arr [tnl; Num f] = encode (Num s) (Num a) Undef Undef).
Proof.
  split; [|split; [|split]].
  - intros p Hp. unfold strIvl. rewrite Hp. reflexivity.
  - intros f o d Hd. unfold strNote.
    replace (isPitch _ && negb _) with false; [reflexivity|].
    simpl. destruct (Z.eqb_spec d 0); [lia|reflexivity].
  - intros s a Hs. rewrite encode_pc by exact Hs.
    assert (G : exists ch,
      String.get (Z.to_nat s) "CDEFGAB" = Some ch /\
      strNote (Arr [tnl; Num (fifthsZ s + 7 * a)]) =
        Str (String ch (rep (if a <? 0 then "b" else "#") (Z.abs_nat a)))).
    { unfold strNote. change (isPitch _ && negb _) with true. cbv iota.
      rewrite decode_pc. cbn [step alt oct].
      destruct (fifths_of_step_alt s a Hs) as [-> ->].
      rewrite stepZ_fifthsZ by exact Hs. rewrite toAcc_num.
      assert (L : exists ch, String.get (Z.to_nat s) "CDEFGAB" = Some ch /\
                             toLetter (Num s) = Str (String ch EmptyString)).
      { seven s; eexists; split; reflexivity. }
      destruct L as (ch & Hg & ->). exists ch. split; [exact Hg|].
      cbn [strNum isNull negb]. rewrite jsAdd_str_str, jsAdd_str_str.
      assert (E : forall r : string, r +:+ "" = r).
      { induction r as [|x r IH]; [reflexivity|].
        change (String x r +:+ "") with (String x (r +:+ "")). rewrite IH. reflexivity. }
      rewrite E. reflexivity. }
    destruct G as (ch & Hg & Hn). exists ch. split; [exact Hg|]. split; [exact Hn|].
    unfold strPitch. simpl (truthy _). cbv iota. exact Hn.
  - intros f. exists (stepZ ((f + 1) mod 7)), ((f + 1) / 7).
    split; [apply stepZ_range|].
    rewrite encode_pc by apply stepZ_range. rewrite encode_decode_fifths. reflexivity.
Qed.

Lemma serializers_outside_variant_witness :
  strIvl (Arr [tnl; Num 3]) = Null /\
  strNote (Arr [tnl; Num 4; Num (-2); Num 1]) = Null /\
  (exists ch,
     String.get (Z.to_nat 3) "CDEFGAB" = Some ch /\
     strNote (encode (Num 3) (Num (-2)) Undef Undef) =
       Str (String ch (rep (if -2 <? 0 then "b" else "#") (Z.abs_nat (-2)))) /\
     strPitch (encode (Num 3) (Num (-2)) Undef Undef) =
       Str (String ch (rep (if -2 <? 0 then "b" else "#") (Z.abs_nat (-2))))) /\
  (exists s a, 0 <= s <= 6 /\ Arr [tnl; Num 3] = encode (Num s) (Num a) Undef Undef).
Proof.
  destruct serializers_outside_variant as (H1 & H2 & H3 & H4).
  split; [apply H1; reflexivity|]. split; [apply H2; lia|].
  split; [apply H3; lia|apply H4].
Defined.

(** ** Simplification *)

(** C10: on an Interval, [simplify] returns an interval with the same fifths
    coordinate (element 1) and the same direction (element 3); only the
    octave offset is recomputed, and the cache is left as it was. *)
Theorem simplify_keeps_fifths_and_direction (i : value) (c : cache) :
  isInterval i = true ->
  exists o, simplify i c = (Arr [tnl; idx i 1; o; idx i 3], c).
Proof.
  intros Hi. unfold simplify, ivlFn, pitchOp.
  rewrite (isInterval_isPitch i Hi). eexists. reflexivity.
Qed.

Lemma simplify_keeps_fifths_and_direction_witness :
  exists o, simplify (Arr [tnl; Num 4; Num 5; Num 1]) ∅ =
            (Arr [tnl; idx (Arr [tnl; Num 4; Num 5; Num 1]) 1; o;
                  idx (Arr [tnl; Num 4; Num 5; Num 1]) 3], ∅).
Proof. apply (simplify_keeps_fifths_and_direction _ ∅). reflexivity. Defined.


(** ** Distances between pitch classes *)

Lemma simplifyAsc_ivlp_cache f o c :
  simplifyAsc (ivlp f o) c = (fst (simplifyAsc (ivlp f o) ∅), c).
Proof.
  unfold simplifyAsc, simplify, ivlFn, pitchOp, ivlp, calcDir, bind, ret.
  change (isPitch (Arr (tnl :: _))) with true. cbv iota.
  destruct (ltZ _ 0); reflexivity.
Qed.

Lemma substr_cache a b c : substr a b c = (substrVal a b, c).
Proof.
  unfold substrVal, substr.
  destruct (are isPitchClass a b); [apply simplifyAsc_ivlp_cache|].
  destruct (are isPitchNote a b); [reflexivity|].
  destruct (are isInterval a b); reflexivity.
Qed.



(** ** Transposition and its operands *)

Lemma transpose_unfold a b c :
  transpose a b c =
  let (pa, c1) := asPitch a c in
  let (pb, c2) := asPitch b c1 in
  (toPitchStr (if isInterval pa then trBy pa pb
               else if isInterval pb then trBy pb pa else Null), c2).
Proof.
  unfold transpose, bind, ret.
  destruct (asPitch a c) as [pa c1]. destruct (asPitch b c1) as [pb c2]. reflexivity.
Qed.



Lemma isInterval_idx i :
  isInterval i = true -> isNum (idx i 2) = true /\ isNum (idx i 3) = true.
Proof.
  unfold isInterval, hasOct. intros H.
  apply andb_true_iff in H as [H H3]. apply andb_true_iff in H as [_ H2]. auto.
Qed.

Lemma isInterval_len i :
  isInterval i = true -> eqNum (len i) 2 = false /\ eqNum (len i) 3 = false.
Proof.
  intros Hi. destruct (isInterval_idx i Hi) as [_ H3].
  destruct (isPitch_Arr i (isInterval_isPitch i Hi)) as [l ->].
  destruct l as [|x1 [|x2 [|x3 l]]]; try discriminate.
  unfold len, eqNum. cbn [List.length]. split; apply Z.eqb_neq; lia.
Qed.

Lemma calcDir_cases f o : calcDir f o = Num (-1) \/ calcDir f o = Num 1.
Proof. unfold calcDir. destruct (ltZ _ 0); auto. Qed.








(** ** The cache is transparent

    On a consistent cache the parsers return what they would compute, and
    they leave the cache consistent. *)

Lemma cache_ok_empty : cache_ok ∅.
Proof. intros s v H. rewrite lookup_empty in H. discriminate. Qed.

Lemma cache_ok_insert c s v :
  cache_ok c -> (truthy v = true -> v = pitchOf s) -> cache_ok (<[s := v]> c).
Proof.
  intros Hc Hv s' v' H Ht. destruct (decide (s = s')) as [<-|Hne].
  - rewrite lookup_insert_eq in H. injection H as <-. auto.
  - rewrite lookup_insert_ne in H by exact Hne. eapply Hc; eassumption.
Qed.

Lemma letterStep_range ch st : noteParser.letterStep ch = Some st -> 0 <= st <= 6.
Proof.
  destruct ch as [[|] [|] [|] [|] [|] [|] [|] [|]]; simpl; intros H;
    try discriminate; injection H as <-; lia.
Qed.

Lemma noteParser_octave_cases t o :
  noteParser.octave t = Some o -> o = Undef \/ exists n, o = Num n.
Proof.
  unfold noteParser.octave. destruct t.
  - intros [= <-]. auto.
  - destruct (NilZero.int_of_string _); simpl; intros [= <-]. eauto.
Qed.

Lemma noteOf_cases s :
  noteOf s = Null \/
  (exists f, noteOf s = Arr [tnl; Num f]) \/
  (exists f o, noteOf s = Arr [tnl; Num f; Num o]).
Proof.
  unfold noteOf, noteParse, noteParser.parse. destruct s as [|l r]; [auto|].
  destruct (noteParser.letterStep l) as [st|] eqn:El; [|auto].
  apply letterStep_range in El.
  destruct (noteParser.accidentals r) as [a t].
  destruct (noteParser.octave t) as [o|] eqn:Eo; [|auto].
  simpl. unfold notePitch.
  destruct (noteParser_octave_cases t o Eo) as [-> | [n ->]].
  - right. left. rewrite encode_pc by lia. eauto.
  - right. right. rewrite encode_note by lia. eauto.
Qed.

Lemma noteOf_truthy s : truthy (noteOf s) = false -> noteOf s = Null.
Proof.
  destruct (noteOf_cases s) as [H | [[f H] | (f & o & H)]]; rewrite H; auto; discriminate.
Qed.

Lemma ivlOf_cases s :
  ivlOf s = Null \/ exists f o d, ivlOf s = Arr [tnl; Num f; Num o; Num d].
Proof.
  unfold ivlOf, ivlNttn.parse.
  destruct (match s with String "-"%char r => _ | _ => _ end) as [neg s1].
  destruct (match spanDigits s1 with (EmptyString, _) => _ | _ => _ end) as [ds q].
  destruct (NilZero.uint_of_string ds) as [u|]; [|auto].
  destruct (Z.ltb_spec (Z.of_uint u) 1); [auto|].
  destruct (ivlNttn.qToAlt _ q) as [a|]; [|auto].
  simpl. unfold ivl. rewrite jsSub_num.
  right. rewrite encode_ivl.
  - cbv zeta. eauto.
  - pose proof (Z.mod_pos_bound (Z.of_uint u - 1) 7). lia.
Qed.

Lemma ivlOf_truthy s : truthy (ivlOf s) = false -> ivlOf s = Null.
Proof.
  destruct (ivlOf_cases s) as [H | (f & o & d & H)]; rewrite H; auto; discriminate.
Qed.

Lemma note_text_not_number s : noteOf s <> Null -> toNumber (Str s) = None.
Proof.
  unfold noteOf, noteParse, noteParser.parse. destruct s as [|l r]; [congruence|].
  destruct (noteParser.letterStep l) as [st|] eqn:El; [|congruence].
  intros _. simpl. unfold NilZero.int_of_string, NilZero.uint_of_string.
  simpl NilEmpty.uint_of_string.
  destruct (NilEmpty.uint_of_string r);
    destruct l as [[|] [|] [|] [|] [|] [|] [|] [|]]; try discriminate El; reflexivity.
Qed.

Lemma cached_cases parser s c :
  (exists v, c !! s = Some v /\ truthy v = true /\ cached parser (Str s) c = (v, c)) \/
  ((forall v, c !! s = Some v -> truthy v = false) /\
   cached parser (Str s) c = (parser s, <[s := parser s]> c)).
Proof.
  unfold cached. destruct (c !! s) as [v|] eqn:E.
  - destruct (truthy v) eqn:Tv.
    + left. exists v. auto.
    + right. split; [|reflexivity]. intros v' [= <-]. exact Tv.
  - right. split; [|reflexivity]. intros v' [=].
Qed.

Lemma pitchOf_note s : truthy (noteOf s) = true -> pitchOf s = noteOf s.
Proof. intros H. unfold pitchOf, jsOr. rewrite H. reflexivity. Qed.

Lemma pitchOf_ivl s : truthy (noteOf s) = false -> pitchOf s = ivlOf s.
Proof. intros H. unfold pitchOf, jsOr. rewrite H. reflexivity. Qed.

Lemma parseNote_keeps s c : cache_ok c -> cache_ok (snd (parseNote (Str s) c)).
Proof.
  intros Hc. unfold parseNote.
  destruct (cached_cases noteOf s c) as [(v & _ & _ & ->) | [_ ->]]; [exact Hc|].
  apply cache_ok_insert; [exact Hc|]. intros H. symmetry. apply pitchOf_note, H.
Qed.

Lemma parseNote_ok s c :
  cache_ok c -> truthy (noteOf s) = true ->
  exists c', parseNote (Str s) c = (noteOf s, c') /\ cache_ok c'.
Proof.
  intros Hc Hn. pose proof (parseNote_keeps s c Hc) as Hk. unfold parseNote in *.
  destruct (cached_cases noteOf s c) as [(v & E & Tv & Hv) | [_ Hv]];
    rewrite Hv in *; simpl in Hk.
  - exists c. split; [|exact Hc]. f_equal.
    rewrite (Hc s v E Tv). apply pitchOf_note, Hn.
  - eexists. split; [reflexivity|exact Hk].
Qed.

Lemma parsePitch_ok s c :
  cache_ok c -> exists c', parsePitch (Str s) c = (pitchOf s, c') /\ cache_ok c'.
Proof.
  intros Hc. pose proof (parseNote_keeps s c Hc) as Hk.
  unfold parsePitch, bind, parseNote, parseIvl in *.
  destruct (cached_cases noteOf s c) as [(v & E & Tv & Hv) | [_ Hv]];
    rewrite Hv in *; simpl in Hk.
  - rewrite Tv. exists c. split; [|exact Hc]. unfold ret. f_equal. apply (Hc s v E Tv).
  - destruct (truthy (noteOf s)) eqn:Tn.
    + eexists. split; [|exact Hk]. unfold ret. f_equal. symmetry. apply pitchOf_note, Tn.
    + destruct (cached_cases ivlOf s (<[s := noteOf s]> c))
        as [(v & E & Tv & _) | [_ ->]].
      * rewrite lookup_insert_eq in E. injection E as <-. congruence.
      * eexists. split; [f_equal; symmetry; apply pitchOf_ivl, Tn|].
        apply cache_ok_insert; [exact Hk|].
        intros _. symmetry. apply pitchOf_ivl, Tn.
Qed.

Lemma asPitch_ok v c :
  cache_ok c -> exists c', asPitch v c = (asPitchVal v, c') /\ cache_ok c'.
Proof.
  intros Hc. unfold asPitch, notation, asPitchVal.
  destruct (isPitch v); simpl; [exists c; auto|].
  destruct v; try (exists c; split; [reflexivity|exact Hc]).
  apply parsePitch_ok, Hc.
Qed.

(** [parseIvl] on its own can break consistency, because the two parsers
    share the cache: "A4" is the name of a note and of an interval, and after
    [number("A4")] the note lookup of [midi] is answered with the interval. *)
Remark shared_cache_interval_entry :
  let c := snd (number (Str "A4") ∅) in
  fst (midi (Str "A4") ∅) = Num 69 /\
  fst (midi (Str "A4") c) = Num 18 /\
  ~ cache_ok c.
Proof.
  split; [reflexivity|]. split; [reflexivity|].
  intros H.
  specialize (H "A4" (Arr [tnl; Num 6; Num (-3); Num 1]) eq_refl eq_refl).
  vm_compute in H. discriminate.
Qed.

(** ** Midi numbers and frequencies *)

Lemma isPitchClass_hasOct p : isPitchClass p = true -> hasOct p = false.
Proof.
  intros Hp. destruct (isPitch_Arr p (isPitchClass_isPitch p Hp)) as [l ->].
  unfold isPitchClass in Hp. apply andb_true_iff in Hp as [_ L].
  unfold len, eqNum in L. apply Z.eqb_eq in L. cbn [List.length] in L.
  destruct l as [|x1 [|x2 l]]; cbn [List.length] in L; try lia. reflexivity.
Qed.

Lemma midi_pitch_class p c : isPitchClass p = true -> midi p c = (Null, c).
Proof.
  intros Hp. unfold midi, bind.
  rewrite (asNote_pitch p c (isPitchClass_isPitch p Hp)).
  rewrite (isPitchClass_hasOct p Hp).
  destruct (isPitch_Arr p (isPitchClass_isPitch p Hp)) as [l ->]. reflexivity.
Qed.

Lemma midi_note_text s c :
  cache_ok c -> noteOf s <> Null ->
  exists c', midi (Str s) c =
             (if hasOct (noteOf s) then jsAdd (height (noteOf s)) (Num 12) else Null, c')
             /\ cache_ok c'.
Proof.
  intros Hc Hn. unfold midi, bind, asNote, notation.
  assert (Hp : isPitch (Str s) = false).
  { destruct (isPitch (Str s)) eqn:E; [|reflexivity].
    destruct (isPitch_Arr _ E) as [l Hl]. discriminate. }
  rewrite Hp. cbn [negb].
  assert (Tn : truthy (noteOf s) = true).
  { destruct (truthy (noteOf s)) eqn:T; [reflexivity|]. elim Hn. apply noteOf_truthy, T. }
  destruct (parseNote_ok s c Hc Tn) as (c' & -> & Hc').
  exists c'. split; [|exact Hc']. unfold ret. f_equal.
  destruct (hasOct (noteOf s)); [reflexivity|].
  unfold isMidi, geZ. rewrite (note_text_not_number s Hn).
  rewrite andb_false_r. reflexivity.
Qed.

(** On a consistent cache the boundary values are the documented ones:
    [midi("C4")] is 60; [midi] of a Pitch Class, given as a pitch or as text,
    is null; [midi(128)] and [midi(-1)] are null; [toFreq("A4")] is 440. *)
Lemma midi_frequency_consistent (c : cache) :
  cache_ok c ->
  fst (midi (Str "C4") c) = Num 60 /\
  (forall p, isPitchClass p = true -> fst (midi p c) = Null) /\
  (forall s, isPitchClass (noteOf s) = true -> fst (midi (Str s) c) = Null) /\
  fst (midi (Num 128) c) = Null /\
  fst (midi (Num (-1)) c) = Null /\
  fst (toFreq (Str "A4") c) = Some 440%R.
Proof.
  intros Hc. repeat split.
  - destruct (midi_note_text "C4" c Hc) as (c' & -> & _); [discriminate|reflexivity].
  - intros p Hp. rewrite midi_pitch_class by exact Hp. reflexivity.
  - intros s Hs.
    destruct (midi_note_text s c Hc) as (c' & -> & _).
    + intros Hn. rewrite Hn in Hs. discriminate.
    + rewrite (isPitchClass_hasOct _ Hs). reflexivity.
  - unfold toFreq, wellTempered, bind.
    destruct (midi_note_text "A4" c Hc) as (c' & -> & _); [discriminate|].
    change (if hasOct (noteOf "A4") then jsAdd (height (noteOf "A4")) (Num 12) else Null)
      with (Num 69).
    simpl. f_equal.
    replace ((69 - 69) / 12)%R with 0%R by lra.
    rewrite Rpower_O by lra. lra.
Qed.

(** C7: the two parsers keep their results in one cache, keyed by the text
    alone, and "A4" names a note and an augmented fourth.  In a fresh process
    [midi("A4")] is 69 and [toFreq("A4")] is 440; once [parseIvl("A4")] has
    run, [parseNote("A4")] is answered with the interval, [midi("A4")] is 18
    and [toFreq("A4")] is a frequency below 440. *)
Theorem midi_frequency_shared_cache :
  let c := snd (parseIvl (Str "A4") ∅) in
  fst (midi (Str "A4") ∅) = Num 69 /\
  fst (toFreq (Str "A4") ∅) = Some 440%R /\
  fst (parseNote (Str "A4") c) = Arr [tnl; Num 6; Num (-3); Num 1] /\
  fst (midi (Str "A4") c) = Num 18 /\
  exists x, fst (toFreq (Str "A4") c) = Some x /\ (x < 440)%R.
Proof.
  cbv zeta. split; [reflexivity|].
  split; [apply (midi_frequency_consistent ∅ cache_ok_empty)|].
  split; [reflexivity|]. split; [reflexivity|].
  assert (Hm : fst (midi (Str "A4") (snd (parseIvl (Str "A4") ∅))) = Num 18)
    by reflexivity.
  assert (Hw : forall ref p c m, fst (midi p c) = Num m -> m <> 0 ->
             fst (wellTempered ref p c) = Some (Rpower 2 ((IZR m - 69) / 12) * ref)%R).
  { intros ref p c m E Hz. unfold wellTempered, bind. destruct (midi p c) as [v c'].
    simpl in E. subst v. simpl. destruct (Z.eqb_spec m 0); [lia|reflexivity]. }
  eexists. split; [apply (Hw 440%R _ _ 18 Hm); lia|].
  assert (L : (Rpower 2 ((18 - 69) / 12) < Rpower 2 0)%R) by (apply Rpower_lt; lra).
  rewrite Rpower_O in L by lra. lra.
Qed.

(** Where [midi] gives a number other than 0, [wellTempered] gives its
    frequency; where [midi] gives null, it gives null. *)
Lemma wellTempered_of_midi ref p c m :
  fst (midi p c) = Num m -> m <> 0 ->
  fst (wellTempered ref p c) = Some (Rpower 2 ((IZR m - 69) / 12) * ref)%R.
Proof.
  intros Hm Hz. unfold wellTempered, bind. destruct (midi p c) as [v c'].
  simpl in Hm. subst v. simpl. destruct (Z.eqb_spec m 0); [lia|reflexivity].
Qed.

Lemma wellTempered_of_null ref p c :
  fst (midi p c) = Null -> fst (wellTempered ref p c) = None.
Proof.
  intros Hm. unfold wellTempered, bind. destruct (midi p c) as [v c'].
  simpl in Hm. subst v. reflexivity.
Qed.

(** C8: the note C-1, as a pitch or as text, and the number 0 resolve to the
    MIDI number 0, which [isMidi] accepts, and [wellTempered] returns null
    for them instead of a frequency. *)
Theorem wellTempered_midi_zero (ref : R) (c : cache) :
  fst (midi (Arr [tnl; Num 0; Num (-1)]) c) = Num 0 /\
  fst (midi (Num 0) c) = Num 0 /\
  fst (midi (Str "C-1") ∅) = Num 0 /\
  isMidi (Num 0) = true /\
  fst (wellTempered ref (Arr [tnl; Num 0; Num (-1)]) c) = None /\
  fst (wellTempered ref (Num 0) c) = None /\
  fst (wellTempered ref (Str "C-1") ∅) = None.
Proof. repeat split. Qed.

(** ** Decimal text *)

Lemma uint_head u :
  u <> Nil ->
  exists a r, NilEmpty.string_of_uint u = String a r /\ isDigit a = true.
Proof. destruct u; [congruence| | | | | | | | | |]; intros _; simpl; eauto. Qed.

Lemma spanDigits_uint u q :
  headNot isDigit q ->
  spanDigits (NilEmpty.string_of_uint u +:+ q) = (NilEmpty.string_of_uint u, q).
Proof.
  intros Hq. induction u; simpl;
    try (change (isDigit _) with true; cbv iota; rewrite IHu; reflexivity).
  destruct q as [|a q]; [reflexivity|]. simpl in *. rewrite Hq. reflexivity.
Qed.

Lemma dec_pos p : dec (Zpos p) = NilEmpty.string_of_uint (Pos.to_uint p).
Proof.
  unfold dec. simpl. unfold NilZero.string_of_uint.
  pose proof (DecimalPos.Unsigned.to_uint_nonnil p).
  destruct (Pos.to_uint p); congruence.
Qed.

Lemma dec_neg p : dec (Zneg p) = String "-" (NilEmpty.string_of_uint (Pos.to_uint p)).
Proof.
  unfold dec. simpl. unfold NilZero.string_of_uint.
  pose proof (DecimalPos.Unsigned.to_uint_nonnil p).
  destruct (Pos.to_uint p); congruence.
Qed.

Lemma uint_of_dec p :
  NilZero.uint_of_string (NilEmpty.string_of_uint (Pos.to_uint p)) = Some (Pos.to_uint p).
Proof.
  pose proof (DecimalPos.Unsigned.to_uint_nonnil p) as Hn.
  pose proof (NilZero.usu (Pos.to_uint p) Hn) as H.
  unfold NilZero.string_of_uint in H. destruct (Pos.to_uint p); congruence.
Qed.

Lemma of_uint_to_uint p : Z.of_uint (Pos.to_uint p) = Zpos p.
Proof. unfold Z.of_uint. rewrite DecimalPos.Unsigned.of_to. reflexivity. Qed.

Lemma int_of_dec n :
  option_map Z.of_int (NilZero.int_of_string (dec n)) = Some n.
Proof.
  unfold dec. rewrite NilZero.isi.
  - simpl. rewrite DecimalZ.of_to. reflexivity.
  - destruct n; simpl; try discriminate.
    intros [= H]. exact (DecimalPos.Unsigned.to_uint_nonnil _ H).
  - destruct n; simpl; try discriminate.
    intros [= H]. exact (DecimalPos.Unsigned.to_uint_nonnil _ H).
Qed.

Lemma dec_head n :
  exists a r, dec n = String a r /\ (isDigit a = true \/ a = "-"%char).
Proof.
  destruct n as [|p|p].
  - exists "0"%char, EmptyString. split; [reflexivity|]. left. reflexivity.
  - rewrite dec_pos.
    destruct (uint_head _ (DecimalPos.Unsigned.to_uint_nonnil p)) as (a & r & -> & Ha).
    eauto.
  - rewrite dec_neg. eauto.
Qed.

Lemma append_cons a s t : String a s +:+ t = String a (s +:+ t).
Proof. reflexivity. Qed.

Lemma append_nil t : "" +:+ t = t.
Proof. reflexivity. Qed.

Lemma spanChar_rep ch n rest :
  headNot (fun a => Ascii.eqb a ch) rest ->
  spanChar ch (rep (String ch EmptyString) n +:+ rest) = (n, rest).
Proof.
  intros Hr. induction n as [|n IH].
  - simpl rep. rewrite append_nil.
    destruct rest as [|a r]; [reflexivity|]. simpl in *. rewrite Hr. reflexivity.
  - cbn [rep]. rewrite !append_cons, append_nil. cbn [spanChar].
    rewrite Ascii.eqb_refl, IH. reflexivity.
Qed.

Lemma append_empty s : s +:+ "" = s.
Proof. induction s as [|a s IH]; [reflexivity|]. rewrite append_cons, IH. reflexivity. Qed.

(** ** Note names parse back *)

Lemma digit_facts a :
  isDigit a = true \/ a = "-"%char ->
  Ascii.eqb a "#" = false /\ Ascii.eqb a "b" = false /\
  noteParser.letterStep a = None.
Proof.
  intros [H | ->]; [|repeat split].
  destruct a as [[|] [|] [|] [|] [|] [|] [|] [|]]; try discriminate H; repeat split.
Qed.

Lemma accidentals_text a rest :
  rest = EmptyString \/ textHead rest ->
  noteParser.accidentals
    (rep (if a <? 0 then "b" else "#") (Z.abs_nat a) +:+ rest) = (a, rest).
Proof.
  intros Hrest.
  assert (Hsharp : headNot (fun x => Ascii.eqb x "#") rest /\
                   headNot (fun x => Ascii.eqb x "b") rest).
  { destruct Hrest as [-> | (x & r & -> & Hx)]; [split; exact I|].
    destruct (digit_facts x Hx) as (H1 & H2 & _). split; assumption. }
  destruct Hsharp as [Hs Hb].
  destruct (Z.abs_nat a) as [|k] eqn:Ek.
  - assert (a = 0) by lia. subst a. simpl rep. rewrite append_nil.
    destruct Hrest as [-> | (x & r & -> & Hx)]; [reflexivity|].
    destruct (digit_facts x Hx) as (H1 & H2 & _).
    destruct x as [[|] [|] [|] [|] [|] [|] [|] [|]]; try discriminate; reflexivity.
  - destruct (Z.ltb_spec a 0).
    + pose proof (spanChar_rep "b" (S k) rest Hb) as Hspan.
      cbn [rep] in *. rewrite !append_cons, append_nil in *.
      unfold noteParser.accidentals. rewrite Hspan.
      f_equal. lia.
    + pose proof (spanChar_rep "#" (S k) rest Hs) as Hspan.
      cbn [rep] in *. rewrite !append_cons, append_nil in *.
      unfold noteParser.accidentals. rewrite Hspan. f_equal. lia.
Qed.

Lemma octave_dec n : noteParser.octave (dec n) = Some (Num n).
Proof.
  pose proof (int_of_dec n) as H. unfold noteParser.octave.
  destruct (dec_head n) as (a & r & E & _). rewrite E in *.
  destruct (NilZero.int_of_string (String a r)); simpl in *; congruence.
Qed.

Lemma noteOf_strNote_note f o :
  exists s, strNote (Arr [tnl; Num f; Num o]) = Str s /\
            noteOf s = Arr [tnl; Num f; Num o].
Proof.
  destruct (toLetter_step _ (stepZ_range ((f + 1) mod 7))) as (ch & Hl & Hs).
  eexists. split.
  - unfold strNote. change (isPitch _ && negb _) with true. cbv iota.
    rewrite decode_note. simpl step. simpl alt. simpl oct.
    rewrite Hl, toAcc_num. unfold strNum. simpl isNull. cbn [negb].
    autorewrite with js. rewrite append_cons, append_nil. reflexivity.
  - unfold noteOf, noteParse, noteParser.parse. rewrite append_cons, Hs.
    rewrite accidentals_text by (right; apply dec_head).
    rewrite octave_dec. simpl. unfold notePitch.
    rewrite encode_note by apply stepZ_range.
    rewrite encode_decode_fifths. repeat (f_equal; try lia).
Qed.

Lemma noteOf_strNote_pc f :
  exists s, strNote (Arr [tnl; Num f]) = Str s /\ noteOf s = Arr [tnl; Num f].
Proof.
  destruct (strNote_pc f) as (ch & Hs & E). rewrite E.
  eexists. split; [reflexivity|].
  unfold noteOf, noteParse, noteParser.parse. rewrite !append_cons, append_nil, Hs.
  rewrite accidentals_text by (left; reflexivity).
  simpl. unfold pitchClass, notePitch.
  rewrite encode_pc by apply stepZ_range.
  rewrite encode_decode_fifths. reflexivity.
Qed.

(** ** Transposition and distance without the cache

    On a consistent cache, [transpose] and [distance] return what they
    compute from the pitches their operands stand for. *)

Lemma isPitch_Str s : isPitch (Str s) = false.
Proof.
  destruct (isPitch (Str s)) eqn:E; [|reflexivity].
  destruct (isPitch_Arr _ E) as [l Hl]. discriminate.
Qed.

Lemma transpose_ok a b c :
  cache_ok c ->
  exists c', transpose a b c = (transposeVal a b, c') /\ cache_ok c'.
Proof.
  intros Hc. rewrite transpose_unfold.
  destruct (asPitch_ok a c Hc) as (c1 & -> & Hc1).
  destruct (asPitch_ok b c1 Hc1) as (c2 & -> & Hc2).
  exists c2. split; [reflexivity|exact Hc2].
Qed.

Lemma distance_ok a b c :
  cache_ok c ->
  exists c', distance a b c = (distanceVal a b, c') /\ cache_ok c'.
Proof.
  intros Hc. unfold distance, bind.
  destruct (asPitch_ok a c Hc) as (c1 & -> & Hc1).
  destruct (asPitch_ok b c1 Hc1) as (c2 & -> & Hc2).
  rewrite substr_cache. exists c2. split; [reflexivity|exact Hc2].
Qed.

Lemma asPitchVal_fst v c : cache_ok c -> fst (asPitch v c) = asPitchVal v.
Proof. intros Hc. destruct (asPitch_ok v c Hc) as (c' & -> & _). reflexivity. Qed.

Lemma asPitchVal_note_text s f o :
  noteOf s = Arr [tnl; Num f; Num o] -> asPitchVal (Str s) = Arr [tnl; Num f; Num o].
Proof.
  intros H. unfold asPitchVal. rewrite isPitch_Str. unfold pitchOf. rewrite H.
  reflexivity.
Qed.

Lemma asPitchVal_pc_text s f :
  noteOf s = Arr [tnl; Num f] -> asPitchVal (Str s) = Arr [tnl; Num f].
Proof.
  intros H. unfold asPitchVal. rewrite isPitch_Str. unfold pitchOf. rewrite H.
  reflexivity.
Qed.

Lemma transposeVal_note a i fa oa fi oi di :
  asPitchVal a = Arr [tnl; Num fa; Num oa] ->
  asPitchVal i = Arr [tnl; Num fi; Num oi; Num di] ->
  transposeVal a i = strNote (Arr [tnl; Num (fi + fa); Num (oi + oa)]) /\
  transposeVal i a = strNote (Arr [tnl; Num (fi + fa); Num (oi + oa)]).
Proof.
  intros Ha Hi. unfold transposeVal. rewrite Ha, Hi. split; reflexivity.
Qed.

Lemma distanceVal_notes a b fa oa fb ob :
  asPitchVal a = Arr [tnl; Num fa; Num oa] ->
  asPitchVal b = Arr [tnl; Num fb; Num ob] ->
  distanceVal a b = strIvl (ivlp (Num (fb - fa)) (Num (ob - oa))).
Proof.
  intros Ha Hb. unfold distanceVal. rewrite Ha, Hb. reflexivity.
Qed.





(** ** Interval names parse back *)

Lemma type_num n :
  1 <= n ->
  ivlNttn.type (Num n) = Str (if perfZ ((n - 1) mod 7) then "P" else "M").
Proof.
  intros Hn. unfold ivlNttn.type. autorewrite with js.
  rewrite Z.rem_mod_nonneg by lia.
  pose proof (Z.mod_pos_bound (n - 1) 7 ltac:(lia)) as Hb.
  set (s := (n - 1) mod 7) in *. seven s; reflexivity.
Qed.

Lemma spanChar_run ch k :
  spanChar ch (String ch (rep (String ch EmptyString) k)) = (S k, EmptyString).
Proof.
  pose proof (spanChar_rep ch (S k) EmptyString I) as H.
  cbn [rep] in H. rewrite append_cons, append_nil, append_empty in H. exact H.
Qed.

Lemma rep_S s k : rep (String s EmptyString) (S k) = String s (rep (String s EmptyString) k).
Proof. cbn [rep]. rewrite append_cons, append_nil. reflexivity. Qed.

Lemma qToAlt_altToQ n a :
  1 <= n ->
  exists q, ivlNttn.altToQ (Num n) (Num a) = Str q /\
            ivlNttn.qToAlt (ivlNttn.type (Num n)) q = Some a /\
            headNot isDigit q.
Proof.
  intros Hn. unfold ivlNttn.altToQ. rewrite (type_num n Hn).
  autorewrite with js. unfold ivlNttn.fillStr.
  destruct (Z.eqb_spec a 0) as [->|Hz].
  { destruct (perfZ _); eexists; repeat split. }
  destruct (Z.eqb_spec a (-1)) as [->|Hm].
  { destruct (perfZ _); eexists; repeat split. }
  destruct (Z.ltb_spec 0 a) as [Hpos|Hneg].
  { rewrite andb_false_l. simpl toNumber.
    destruct (Z.abs_nat a) as [|k] eqn:Ek; [lia|]. rewrite ?Ek, rep_S.
    eexists. split; [reflexivity|]. split; [|reflexivity].
    assert (E : forall t, ivlNttn.qToAlt t (String "A" (rep "A" k)) = Some a).
    { intros t. unfold ivlNttn.qToAlt. rewrite spanChar_run. f_equal. lia. }
    apply E. }
  rewrite andb_false_l.
  destruct (Z.ltb_spec a 0) as [Hlt|]; [|lia].
  destruct (perfZ _) eqn:Ep.
  - simpl eqStr. cbv iota. simpl toNumber.
    destruct (Z.abs_nat a) as [|k] eqn:Ek; [lia|]. rewrite ?Ek, rep_S.
    eexists. split; [reflexivity|]. split; [|reflexivity].
    unfold ivlNttn.qToAlt. rewrite spanChar_run. simpl eqStr. cbv iota. f_equal. lia.
  - simpl eqStr. cbv iota. autorewrite with js. simpl toNumber.
    destruct (Z.abs_nat (a + 1)) as [|k] eqn:Ek; [lia|]. rewrite ?Ek, rep_S.
    eexists. split; [reflexivity|]. split; [|reflexivity].
    unfold ivlNttn.qToAlt. rewrite spanChar_run. simpl eqStr. cbv iota. f_equal. lia.
Qed.

Lemma sign_split_digit a0 r0 :
  isDigit a0 = true ->
  match String a0 r0 with
  | String "-"%char r => (true, r)
  | _ => (false, String a0 r0)
  end = (false, String a0 r0).
Proof.
  intros H. destruct a0 as [[|] [|] [|] [|] [|] [|] [|] [|]]; try discriminate H; reflexivity.
Qed.

Lemma ivl_digits_first p q :
  headNot isDigit q ->
  match spanDigits (NilEmpty.string_of_uint (Pos.to_uint p) +:+ q) with
  | (EmptyString, _) =>
      let (q0, ds) := spanQuality (NilEmpty.string_of_uint (Pos.to_uint p) +:+ q) in
      (ds, q0)
  | (ds, q') => (ds, q')
  end = (NilEmpty.string_of_uint (Pos.to_uint p), q).
Proof.
  intros Hh. rewrite (spanDigits_uint _ q Hh).
  destruct (uint_head _ (DecimalPos.Unsigned.to_uint_nonnil p)) as (a0 & r0 & E & _).
  rewrite E. reflexivity.
Qed.

Lemma ivl_parse_text n q a (neg : bool) :
  1 <= n ->
  ivlNttn.qToAlt (ivlNttn.type (Num n)) q = Some a ->
  headNot isDigit q ->
  ivlNttn.parse (dec ((if neg then -1 else 1) * n) +:+ q) =
  Some {| ivlNttn.simple := Num ((n - 1) mod 7 + 1);
          ivlNttn.alt := Num a;
          ivlNttn.oct := Num ((n - 1) / 7);
          ivlNttn.dir := Num (if neg then -1 else 1) |}.
Proof.
  intros Hn Hq Hh. destruct n as [|p|p]; try lia.
  unfold ivlNttn.parse. destruct neg.
  - change (-1 * Zpos p) with (Zneg p). rewrite dec_neg, append_cons.
    rewrite (ivl_digits_first p q Hh), uint_of_dec.
    cbv zeta. rewrite of_uint_to_uint, Hq.
    destruct (Z.ltb_spec (Zpos p) 1); [lia|reflexivity].
  - change (1 * Zpos p) with (Zpos p). rewrite dec_pos.
    destruct (uint_head _ (DecimalPos.Unsigned.to_uint_nonnil p)) as (a0 & r0 & E & Hd).
    rewrite E, append_cons, (sign_split_digit a0 (r0 +:+ q) Hd).
    rewrite <- append_cons, <- E.
    rewrite (ivl_digits_first p q Hh), uint_of_dec.
    cbv zeta. rewrite of_uint_to_uint, Hq.
    destruct (Z.ltb_spec (Zpos p) 1); [lia|reflexivity].
Qed.

Lemma noteOf_text_head s : textHead s -> noteOf s = Null.
Proof.
  intros (a & r & -> & Ha). destruct (digit_facts a Ha) as (_ & _ & Hl).
  unfold noteOf, noteParse, noteParser.parse. rewrite Hl. reflexivity.
Qed.

Lemma textHead_dec n q : textHead (dec n +:+ q).
Proof.
  destruct (dec_head n) as (a & r & E & Ha). exists a, (r +:+ q).
  rewrite E, append_cons. auto.
Qed.

Lemma number_split s oc :
  0 <= s <= 6 -> (s + 7 * oc) mod 7 = s /\ (s + 7 * oc) / 7 = oc.
Proof.
  intros Hs. split.
  - symmetry. apply Z.mod_unique with (q := oc); lia.
  - symmetry. apply Z.div_unique with (r := s); lia.
Qed.

(** An ascending interval with a positive number is written as text that
    parses back to it. *)
Lemma ivlOf_strIvl_asc f o n :
  calcNum (decode (Arr [tnl; Num f; Num o; Num 1])) = Num n -> 1 <= n ->
  exists s, strIvl (Arr [tnl; Num f; Num o; Num 1]) = Str s /\
            ivlOf s = Arr [tnl; Num f; Num o; Num 1] /\ noteOf s = Null.
Proof.
  intros Hnum Hn. unfold strIvl. change (isInterval _) with true. cbv iota zeta.
  rewrite decode_ivl in * by lia.
  set (s0 := stepZ ((f + 1) mod 7)) in *. set (a := (f + 1) / 7) in *.
  pose proof (stepZ_range ((f + 1) mod 7)) as Hs0. fold s0 in Hs0.
  unfold calcNum, calcAlt, isAsc in *. simpl dir in *. simpl step in *.
  simpl alt in *. simpl oct in *. simpl (eqNum _ _) in *. cbv iota in *.
  autorewrite with js in Hnum |- *. injection Hnum as Hnum. rewrite Hnum.
  destruct (qToAlt_altToQ n a Hn) as (q & -> & Hq & Hh).
  autorewrite with js. eexists. split; [reflexivity|].
  split; [|apply noteOf_text_head, textHead_dec].
  unfold ivlOf. rewrite (ivl_parse_text n q a false Hn Hq Hh).
  simpl ivlNttn.simple. simpl ivlNttn.alt. simpl ivlNttn.oct. simpl ivlNttn.dir.
  unfold ivl. autorewrite with js.
  replace (n - 1) with (s0 + 7 * (o + 4 * a + spanZ s0)) by lia.
  destruct (number_split s0 (o + 4 * a + spanZ s0) Hs0) as [-> ->].
  replace (s0 + 1 - 1) with s0 by lia.
  rewrite encode_ivl by lia. simpl (if 1 <? 0 then _ else _). cbv zeta.
  pose proof (encode_decode_fifths f) as Hf. fold s0 in Hf. fold a in Hf.
  repeat (f_equal; try lia).
Qed.

(** The inversion that [decode] reads off a descending interval. *)
Lemma inversion_split s' oc' :
  0 <= s' <= 6 ->
  (8 - s' - 7 * (oc' + 1) - 1) mod 7 = (7 - s') mod 7 /\
  (8 - s' - 7 * (oc' + 1) - 1) / 7 = - oc' - (if s' =? 0 then 0 else 1).
Proof.
  intros Hs.
  seven s'; vm_compute ((7 - _) mod 7); vm_compute (_ =? _); cbv iota;
    split; Z.div_mod_to_equations; lia.
Qed.

Lemma inversion_coords r a' o :
  0 <= r <= 6 ->
  let s' := stepZ r in
  let oc' := o + 4 * a' + spanZ s' in
  let s := (7 - s') mod 7 in
  let oc := - oc' - (if s' =? 0 then 0 else 1) in
  let a := if perfZ s' then - a' else - (a' + 1) in
  0 <= s <= 6 /\
  -1 * (fifthsZ s + 7 * a) = 7 * a' + r - 1 /\
  -1 * (oc - spanZ s - 4 * a) = o.
Proof.
  intros Hr. seven r; cbv zeta; vm_compute (stepZ _); vm_compute (perfZ _);
    vm_compute ((7 - _) mod 7); vm_compute (_ =? _); cbv iota;
    vm_compute (spanZ _); vm_compute (fifthsZ _); lia.
Qed.

Lemma isPerf_num s a o d :
  0 <= s <= 6 ->
  isPerf {| step := Num s; alt := a; oct := o; dir := d |} = perfZ s.
Proof.
  intros Hs. unfold isPerf. simpl step. autorewrite with js.
  rewrite type_num by lia. replace (s + 1 - 1) with s by lia.
  rewrite Z.mod_small by lia. destruct (perfZ s); reflexivity.
Qed.

(** A descending interval with a positive number is written as text that
    parses back to it. *)
Lemma ivlOf_strIvl_desc f o n :
  calcNum (decode (Arr [tnl; Num f; Num o; Num (-1)])) = Num n -> 1 <= n ->
  exists s, strIvl (Arr [tnl; Num f; Num o; Num (-1)]) = Str s /\
            ivlOf s = Arr [tnl; Num f; Num o; Num (-1)] /\ noteOf s = Null.
Proof.
  intros Hnum Hn. unfold strIvl. change (isInterval _) with true. cbv iota zeta.
  rewrite decode_ivl in * by lia.
  pose proof (Z.mod_pos_bound (f + 1) 7 ltac:(lia)) as Hr.
  set (r := (f + 1) mod 7) in *. set (a' := (f + 1) / 7) in *.
  pose proof (stepZ_range r) as Hs'.
  unfold calcNum, calcAlt, isAsc in *.
  rewrite isPerf_num by exact Hs'.
  simpl dir in *. simpl step in *. simpl alt in *. simpl oct in *.
  simpl (eqNum _ _) in *. cbv iota in *.
  autorewrite with js in Hnum |- *. injection Hnum as Hnum. rewrite Hnum.
  assert (Ea : (if perfZ (stepZ r) then Num (- a') else Num (- (a' + 1))) =
               Num (if perfZ (stepZ r) then - a' else - (a' + 1))).
  { destruct (perfZ (stepZ r)); reflexivity. }
  rewrite Ea. clear Ea.
  set (a := if perfZ (stepZ r) then - a' else - (a' + 1)).
  destruct (qToAlt_altToQ n a Hn) as (q & -> & Hq & Hh).
  autorewrite with js. eexists. split; [reflexivity|].
  split; [|apply noteOf_text_head, textHead_dec].
  unfold ivlOf. rewrite (ivl_parse_text n q a true Hn Hq Hh).
  simpl ivlNttn.simple. simpl ivlNttn.alt. simpl ivlNttn.oct. simpl ivlNttn.dir.
  unfold ivl. autorewrite with js.
  destruct (inversion_split (stepZ r) (o + 4 * a' + spanZ (stepZ r)) Hs') as [Em Ed].
  rewrite <- Hnum, Em, Ed.
  destruct (inversion_coords r a' o ltac:(lia)) as (Hs & Hf & Ho).
  replace ((7 - stepZ r) mod 7 + 1 - 1) with ((7 - stepZ r) mod 7) by lia.
  rewrite encode_ivl by exact Hs. simpl (if -1 <? 0 then _ else _). cbv zeta.
  fold a in Hf, Ho. rewrite Hf, Ho.
  pose proof (fifths_split f) as Hsplit. fold r in Hsplit. fold a' in Hsplit.
  repeat (f_equal; try lia).
Qed.

(** ** The distance between pitch classes has a positive number *)

Lemma neg_residue x :
  (-1 * x + 1) mod 7 = (2 - (x + 1) mod 7) mod 7 /\
  (-1 * x + 1) / 7 = (2 - (x + 1) mod 7) / 7 - (x + 1) / 7.
Proof.
  pose proof (Z.div_mod (x + 1) 7 ltac:(lia)) as Hx.
  pose proof (Z.div_mod (2 - (x + 1) mod 7) 7 ltac:(lia)) as Hy.
  pose proof (Z.mod_pos_bound (2 - (x + 1) mod 7) 7 ltac:(lia)) as Hb.
  split.
  - symmetry. apply Z.mod_unique with (q := (2 - (x + 1) mod 7) / 7 - (x + 1) / 7); lia.
  - symmetry. apply Z.div_unique with (r := (2 - (x + 1) mod 7) mod 7); lia.
Qed.

Lemma substrVal_pcs fa fb :
  exists o n,
    substrVal (Arr [tnl; Num fa]) (Arr [tnl; Num fb]) =
      Arr [tnl; Num (fb - fa); Num o; Num 1] /\
    calcNum (decode (Arr [tnl; Num (fb - fa); Num o; Num 1])) = Num n /\ 1 <= n.
Proof.
  unfold substrVal, substr. change (are isPitchClass _ _) with true. cbv iota.
  simpl idx. autorewrite with js. set (x := fb - fa).
  unfold simplifyAsc, simplify, ivlFn, pitchOp, ivlp, calcDir, bind, ret.
  change (isPitch (Arr (tnl :: _))) with true. cbv iota.
  autorewrite with js.
  pose proof (Z.mod_pos_bound (x + 1) 7 ltac:(lia)) as Hr.
  pose proof (stepZ_range ((x + 1) mod 7)) as Hs.
  destruct (Z.ltb_spec (7 * x + 12 * 0) 0) as [Hneg|Hpos]; simpl idx;
    autorewrite with js; rewrite !decodeStep_num, !decodeAlt_num.
  - rewrite FIFTH_OCTS_get by apply stepZ_range. autorewrite with js.
    simpl (_ =? _). cbv iota. simpl fst.
    eexists. eexists. split; [reflexivity|].
    rewrite decode_ivl by lia. unfold calcNum, isAsc. simpl.
    autorewrite with js. split; [reflexivity|].
    destruct (neg_residue x) as [-> ->].
    set (r := (x + 1) mod 7) in *.
    assert (Hc : r = 0 \/ r = 1 \/ r = 2 \/ r = 3 \/ r = 4 \/ r = 5 \/ r = 6) by lia.
    destruct Hc as [E|[E|[E|[E|[E|[E|E]]]]]]; rewrite E;
      vm_compute ((2 - _) mod 7); vm_compute ((2 - _) / 7);
      repeat vm_compute (stepZ _); repeat vm_compute (spanZ _); lia.
  - rewrite FIFTH_OCTS_get by apply stepZ_range. autorewrite with js.
    simpl (_ =? _). cbv iota. simpl fst.
    eexists. eexists. split; [reflexivity|].
    rewrite decode_ivl by lia. unfold calcNum, isAsc. simpl.
    autorewrite with js. split; [reflexivity|].
    replace (1 * x + 1) with (x + 1) by lia. lia.
Qed.

(** ** Distance, then transposition *)

Lemma asPitchVal_ivl_text s p :
  ivlOf s = p -> noteOf s = Null -> asPitchVal (Str s) = p.
Proof.
  intros Hi Hn. unfold asPitchVal. rewrite isPitch_Str. unfold pitchOf.
  rewrite Hn, Hi. reflexivity.
Qed.

Lemma ivlp_num f o :
  ivlp (Num f) (Num o) = Arr [tnl; Num f; Num o; Num (-1)] \/
  ivlp (Num f) (Num o) = Arr [tnl; Num f; Num o; Num 1].
Proof.
  unfold ivlp. destruct (calcDir_cases (Num f) (Num o)) as [-> | ->]; auto.
Qed.

Lemma strIvl_ivlp_text f o n :
  calcNum (decode (ivlp (Num f) (Num o))) = Num n -> 1 <= n ->
  exists s, strIvl (ivlp (Num f) (Num o)) = Str s /\
            asPitchVal (Str s) = ivlp (Num f) (Num o).
Proof.
  intros Hnum Hn. destruct (ivlp_num f o) as [E | E]; rewrite E in *.
  - destruct (ivlOf_strIvl_desc f o n Hnum Hn) as (s & Hs & Hi & Hnote).
    exists s. split; [exact Hs|]. apply asPitchVal_ivl_text; assumption.
  - destruct (ivlOf_strIvl_asc f o n Hnum Hn) as (s & Hs & Hi & Hnote).
    exists s. split; [exact Hs|]. apply asPitchVal_ivl_text; assumption.
Qed.

Lemma number_pitch i c : isPitch i = true -> number i c = (calcNum (decode i), c).
Proof. intros Hi. unfold number, ivlFn, pitchOp. rewrite Hi. reflexivity. Qed.

Lemma distance_transpose_pcs a b fa fb :
  asPitchVal a = Arr [tnl; Num fa] -> asPitchVal b = Arr [tnl; Num fb] ->
  transposeVal a (distanceVal a b) = strNote (Arr [tnl; Num fb]).
Proof.
  intros Ha Hb. unfold distanceVal. rewrite Ha, Hb.
  destruct (substrVal_pcs fa fb) as (o & n & -> & Hnum & Hn).
  destruct (ivlOf_strIvl_asc _ o n Hnum Hn) as (s & Hs & Hi & Hnote).
  unfold toIvlStr, notation. change (isPitch (Arr (tnl :: _))) with true.
  cbn [negb]. rewrite Hs.
  unfold transposeVal. rewrite Ha, (asPitchVal_ivl_text s _ Hi Hnote).
  change (isInterval (Arr [tnl; Num fa])) with false.
  change (isInterval (Arr [tnl; _; _; _])) with true. cbv iota.
  unfold trBy. simpl isNull. simpl (eqNum _ _). cbv iota. simpl idx.
  autorewrite with js. replace (fb - fa + fa) with fb by lia.
  unfold toPitchStr, notation. reflexivity.
Qed.

Lemma distance_transpose_notes a b fa oa fb ob n :
  asPitchVal a = Arr [tnl; Num fa; Num oa] ->
  asPitchVal b = Arr [tnl; Num fb; Num ob] ->
  calcNum (decode (ivlp (Num (fb - fa)) (Num (ob - oa)))) = Num n -> 1 <= n ->
  transposeVal a (distanceVal a b) = strNote (Arr [tnl; Num fb; Num ob]).
Proof.
  intros Ha Hb Hnum Hn.
  rewrite (distanceVal_notes a b fa oa fb ob Ha Hb).
  destruct (strIvl_ivlp_text _ _ n Hnum Hn) as (s & -> & Hs).
  unfold transposeVal. rewrite Ha, Hs.
  change (isInterval (Arr [tnl; Num fa; Num oa])) with false. cbv iota.
  destruct (ivlp_num (fb - fa) (ob - oa)) as [-> | ->];
    change (isInterval (Arr [tnl; _; _; _])) with true; cbv iota;
    unfold trBy; simpl isNull; simpl (eqNum _ _); cbv iota; simpl idx;
    autorewrite with js;
    replace (fb - fa + fa) with fb by lia; replace (ob - oa + oa) with ob by lia;
    reflexivity.
Qed.

Lemma distance_transpose_ivls a b fa oa da fb ob db n :
  asPitchVal a = Arr [tnl; Num fa; Num oa; Num da] ->
  asPitchVal b = Arr [tnl; Num fb; Num ob; Num db] ->
  calcNum (decode (ivlp (Num (fb - fa)) (Num (ob - oa)))) = Num n -> 1 <= n ->
  transposeVal a (distanceVal a b) = strIvl (ivlp (Num fb) (Num ob)).
Proof.
  intros Ha Hb Hnum Hn.
  assert (Hd : distanceVal a b = strIvl (ivlp (Num (fb - fa)) (Num (ob - oa)))).
  { unfold distanceVal. rewrite Ha, Hb. reflexivity. }
  rewrite Hd. destruct (strIvl_ivlp_text _ _ n Hnum Hn) as (s & -> & Hs).
  unfold transposeVal. rewrite Ha, Hs.
  change (isInterval (Arr [tnl; Num fa; Num oa; Num da])) with true. cbv iota.
  assert (Ht : trBy (Arr [tnl; Num fa; Num oa; Num da])
                    (ivlp (Num (fb - fa)) (Num (ob - oa))) =
               ivlp (Num fb) (Num ob)).
  { unfold trBy, ivlp at 1 2 3 4 5. simpl isNull. simpl (eqNum _ _). cbv iota.
    simpl idx. autorewrite with js.
    replace (fa + (fb - fa)) with fb by lia. replace (oa + (ob - oa)) with ob by lia.
    reflexivity. }
  rewrite Ht. destruct (ivlp_num fb ob) as [-> | ->]; reflexivity.
Qed.

Lemma distance_then_transpose_counterexample :
  let a := Arr [tnl; Num 0; Num 4] in
  let b := Arr [tnl; Num 12; Num (-3)] in
  isPitchNote a = true /\ isPitchNote b = true /\
  strNote a = Str "C4" /\ strNote b = Str "B#3" /\
  fst (distance a b ∅) = Str "0A" /\
  fst ((d <- distance a b ;; transpose a d) ∅) = Null /\
  fst ((d <- distance (Str "C4") (Str "B#3") ;; transpose (Str "C4") d) ∅) = Null /\
  fst ((d <- distance (Str "A4") (Str "C5") ;; transpose (Str "A4") d) ∅) = Str "C5" /\
  fst ((d <- distance (Str "A4") (Str "C5") ;; transpose (Str "A4") d)
         (snd (parseIvl (Str "A4") ∅)))
    = Null.
Proof. repeat split. Qed.

(** C4 (amended): [transpose(a, distance(a, b))] is the serialization of [b]
    for two Pitch Classes, and for two Notes whose distance has a positive
    interval number; for two Intervals whose distance has a positive interval
    number it is the serialization of [b] with its direction derived from the
    sign of its coordinates, hence of [b] itself when [b] has that
    direction.  This is stated on a consistent cache, one whose truthy
    entries are the pitches that [parsePitch] gives for their keys, as in a
    fresh process; what happens once [parseIvl] has cached a text that is also
    a note name is left out. *)
Theorem distance_then_transpose (a b : value) (c : cache) :
  cache_ok c ->
  let pa := fst (asPitch a c) in
  let pb := fst (asPitch b c) in
  let t := fst ((d <- distance a b ;; transpose a d) c) in
  (forall fa fb,
     pa = Arr [tnl; Num fa] -> pb = Arr [tnl; Num fb] -> t = strNote pb) /\
  (forall fa oa fb ob n,
     pa = Arr [tnl; Num fa; Num oa] -> pb = Arr [tnl; Num fb; Num ob] ->
     fst (number (fst (substr pa pb c)) c) = Num n -> 1 <= n ->
     t = strNote pb) /\
  (forall fa oa da fb ob db n,
     pa = Arr [tnl; Num fa; Num oa; Num da] ->
     pb = Arr [tnl; Num fb; Num ob; Num db] ->
     fst (number (fst (substr pa pb c)) c) = Num n -> 1 <= n ->
     t = strIvl (ivlp (Num fb) (Num ob)) /\
     (Num db = calcDir (Num fb) (Num ob) -> t = strIvl pb)).
Proof.
  intros Hc pa pb t. subst pa pb t.
  rewrite !(asPitchVal_fst _ c Hc).
  assert (E : fst ((d <- distance a b ;; transpose a d) c) =
              transposeVal a (distanceVal a b)).
  { unfold bind. destruct (distance_ok a b c Hc) as (c1 & -> & Hc1).
    destruct (transpose_ok a (distanceVal a b) c1 Hc1) as (c2 & -> & _).
    reflexivity. }
  rewrite E. split; [|split].
  - intros fa fb Ha Hb. rewrite Hb. apply (distance_transpose_pcs a b fa fb Ha Hb).
  - intros fa oa fb ob n Ha Hb Hnum Hn. rewrite Hb.
    apply (distance_transpose_notes a b fa oa fb ob n Ha Hb); [|exact Hn].
    rewrite Ha, Hb, substr_cache in Hnum. cbn [fst] in Hnum.
    rewrite number_pitch in Hnum by reflexivity. exact Hnum.
  - intros fa oa da fb ob db n Ha Hb Hnum Hn.
    assert (Et : transposeVal a (distanceVal a b) = strIvl (ivlp (Num fb) (Num ob))).
    { apply (distance_transpose_ivls a b fa oa da fb ob db n Ha Hb); [|exact Hn].
      rewrite Ha, Hb, substr_cache in Hnum. cbn [fst] in Hnum.
      rewrite number_pitch in Hnum by reflexivity. exact Hnum. }
    split; [exact Et|]. intros Hd. rewrite Et, Hb, Hd. reflexivity.
Qed.

Lemma distance_then_transpose_witness :
  fst ((d <- distance (Str "C#") (Str "C") ;; transpose (Str "C#") d) ∅) =
    strNote (fst (asPitch (Str "C") ∅)) /\
  fst ((d <- distance (Str "C4") (Str "Bb3") ;; transpose (Str "C4") d) ∅) =
    strNote (fst (asPitch (Str "Bb3") ∅)) /\
  fst ((d <- distance (Str "2M") (Str "5P") ;; transpose (Str "2M") d) ∅) =
    strIvl (fst (asPitch (Str "5P") ∅)).
Proof.
  split; [|split].
  - pose proof (distance_then_transpose (Str "C#") (Str "C") ∅ cache_ok_empty) as H.
    cbv zeta in H. destruct H as (H & _). apply (H 7 0); reflexivity.
  - pose proof (distance_then_transpose (Str "C4") (Str "Bb3") ∅ cache_ok_empty) as H.
    cbv zeta in H. destruct H as (_ & H & _).
    apply (H 0 4 (-2) 5 2); [reflexivity | reflexivity | reflexivity | lia].
  - pose proof (distance_then_transpose (Str "2M") (Str "5P") ∅ cache_ok_empty) as H.
    cbv zeta in H. destruct H as (_ & _ & H).
    destruct (H 2 (-1) 1 1 0 1 4) as [_ H2];
      [reflexivity | reflexivity | reflexivity | lia |].
    apply H2. reflexivity.
Defined.

(** * Further properties *)

(** ** Decoding, then encoding *)

Lemma encode_nums s a (o d : value) :
  0 <= s <= 6 ->
  encode (Num s) (Num a) o d =
  let pcv := Num (fifthsZ s + 7 * a) in
  if negb (isNum o) then Arr [tnl; pcv] else
  let ov := jsSub (jsSub o (Num (spanZ s))) (Num (4 * a)) in
  if negb (isNum d) then Arr [tnl; pcv; ov] else
  let e := if ltZ d 0 then Num (-1) else Num 1 in
  Arr [tnl; jsMul e pcv; jsMul e ov; e].
Proof.
  intros Hs. unfold encode, encPC, encOct. autorewrite with js.
  rewrite FIFTHS_get, FIFTH_OCTS_get by lia.
  destruct (Z.ltb_spec s 0); [lia|]. destruct (Z.ltb_spec 6 s); [lia|].
  reflexivity.
Qed.

(** X1: encoding what [decode] returns gives the pitch back for a Pitch
    Class, a Note and an ascending Interval; for a descending Interval it
    gives the interval with both coordinates negated. *)
Theorem encode_after_decode (f o : Z) :
  (let p := decode (Arr [tnl; Num f]) in
   encode (step p) (alt p) (oct p) (dir p) = Arr [tnl; Num f]) /\
  (let p := decode (Arr [tnl; Num f; Num o]) in
   encode (step p) (alt p) (oct p) (dir p) = Arr [tnl; Num f; Num o]) /\
  (let p := decode (Arr [tnl; Num f; Num o; Num 1]) in
   encode (step p) (alt p) (oct p) (dir p) = Arr [tnl; Num f; Num o; Num 1]) /\
  (let p := decode (Arr [tnl; Num f; Num o; Num (-1)]) in
   encode (step p) (alt p) (oct p) (dir p) =
   Arr [tnl; Num (- f); Num (- o); Num (-1)]).
Proof.
  pose proof (stepZ_range ((f + 1) mod 7)) as Hs.
  pose proof (encode_decode_fifths f) as Hf.
  cbv zeta. rewrite decode_pc, decode_note, !decode_ivl by lia. cbn [step alt oct dir].
  rewrite !encode_nums by exact Hs. cbn [isNum negb]. cbv zeta. autorewrite with js.
  rewrite Hf. cbn [Z.ltb Z.compare].
  repeat split; autorewrite with js; repeat (f_equal; try lia).
Qed.

(** ** The three variants *)

(** X2: no value is of two variants at once: the predicates [isPitchClass],
    [isPitchNote] and [isInterval] exclude one another. *)
Theorem variants_exclusive (p : value) :
  isPitchClass p && isPitchNote p = false /\
  isPitchClass p && isInterval p = false /\
  isPitchNote p && isInterval p = false.
Proof.
  destruct (isInterval p) eqn:Ei.
  - destruct (isInterval_len p Ei) as [L2 L3].
    unfold isPitchClass, isPitchNote. rewrite L2, L3, !andb_false_r. auto.
  - rewrite !andb_false_r. split; [|auto].
    unfold isPitchClass, isPitchNote.
    destruct (len p) as [| | |n| |]; simpl; rewrite ?andb_false_r; auto.
    destruct (Z.eqb_spec n 2), (Z.eqb_spec n 3); rewrite ?andb_false_r; auto; lia.
Qed.

(** X3: [encode] returns null exactly when the step is outside 0..6;
    otherwise the variant of its result follows from which of the octave and
    the direction are numbers. *)
Theorem encode_variant (s a : Z) (o d : value) :
  (encode (Num s) (Num a) o d = Null <-> s < 0 \/ 6 < s) /\
  (0 <= s <= 6 ->
   isPitchClass (encode (Num s) (Num a) o d) = negb (isNum o) /\
   isPitchNote (encode (Num s) (Num a) o d) = isNum o && negb (isNum d) /\
   isInterval (encode (Num s) (Num a) o d) = isNum o && isNum d).
Proof.
  assert (Hin : 0 <= s <= 6 ->
    encode (Num s) (Num a) o d <> Null /\
    isPitchClass (encode (Num s) (Num a) o d) = negb (isNum o) /\
    isPitchNote (encode (Num s) (Num a) o d) = isNum o && negb (isNum d) /\
    isInterval (encode (Num s) (Num a) o d) = isNum o && isNum d).
  { intros Hs. rewrite encode_nums by exact Hs. cbv zeta.
    destruct (isNum o) eqn:Eo; cbn [negb]; [|repeat split; discriminate].
    assert (Ho : isNum (jsSub (jsSub o (Num (spanZ s))) (Num (4 * a))) = true).
    { unfold jsSub at 1. unfold numOp. destruct (toNumber _); reflexivity. }
    destruct (isNum d) eqn:Ed; cbn [negb].
    - split; [discriminate|]. unfold isPitchClass, isPitchNote, isInterval, hasOct.
      change (isPitch (Arr (tnl :: _))) with true. cbn [idx nth andb].
      assert (H2 : forall e v, isNum (jsMul e v) = true).
      { intros e v. unfold jsMul, numOp. destruct (toNumber e), (toNumber v); reflexivity. }
      rewrite H2. destruct (ltZ d 0); repeat split.
    - split; [discriminate|]. unfold isPitchClass, isPitchNote, isInterval, hasOct.
      change (isPitch (Arr (tnl :: _))) with true. cbn [idx nth andb].
      rewrite Ho. repeat split. }
  split; [|intros Hs; apply Hin, Hs].
  split.
  - intros E. destruct (Z_lt_le_dec s 0); [auto|]. destruct (Z_lt_le_dec 6 s); [auto|].
    destruct (Hin ltac:(lia)) as [Hn _]. contradiction.
  - intros Hs. unfold encode. rewrite ltZ_num, gtZ_num.
    destruct Hs as [Hs|Hs].
    + destruct (Z.ltb_spec s 0); [reflexivity|lia].
    + destruct (Z.ltb_spec 6 s); [|lia]. rewrite orb_true_r. reflexivity.
Qed.

Lemma encode_variant_witness :
  isPitchClass (encode (Num 3) (Num 1) Undef Undef) = negb (isNum Undef) /\
  isPitchNote (encode (Num 3) (Num 1) (Num 4) Undef) = isNum (Num 4) && negb (isNum Undef) /\
  isInterval (encode (Num 3) (Num 1) (Num 4) (Num (-1))) = isNum (Num 4) && isNum (Num (-1)).
Proof.
  split; [|split].
  - apply (encode_variant 3 1 Undef Undef). lia.
  - apply (encode_variant 3 1 (Num 4) Undef). lia.
  - apply (encode_variant 3 1 (Num 4) (Num (-1))). lia.
Defined.

(** ** Names parse back to the pitch they were written from *)

Lemma parseIvl_ok s c :
  cache_ok c -> truthy (noteOf s) = false ->
  exists c', parseIvl (Str s) c = (ivlOf s, c') /\ cache_ok c'.
Proof.
  intros Hc Hn. unfold parseIvl.
  destruct (cached_cases ivlOf s c) as [(v & E & Tv & ->) | [_ ->]].
  - exists c. split; [|exact Hc]. f_equal. rewrite (Hc s v E Tv). apply pitchOf_ivl, Hn.
  - eexists. split; [reflexivity|]. apply cache_ok_insert; [exact Hc|].
    intros _. symmetry. apply pitchOf_ivl, Hn.
Qed.

Lemma parsePitch_fst s c : cache_ok c -> fst (parsePitch (Str s) c) = pitchOf s.
Proof. intros Hc. destruct (parsePitch_ok s c Hc) as (c' & -> & _). reflexivity. Qed.

(** X4: on a consistent cache, the name [strNote] writes for a Pitch Class or
    a Note is read back, by [parseNote] and by [parsePitch], as the same
    pitch. *)
Theorem note_name_roundtrip (c : cache) (f o : Z) :
  cache_ok c ->
  (exists s, strNote (Arr [tnl; Num f]) = Str s /\
             fst (parseNote (Str s) c) = Arr [tnl; Num f] /\
             fst (parsePitch (Str s) c) = Arr [tnl; Num f]) /\
  (exists s, strNote (Arr [tnl; Num f; Num o]) = Str s /\
             fst (parseNote (Str s) c) = Arr [tnl; Num f; Num o] /\
             fst (parsePitch (Str s) c) = Arr [tnl; Num f; Num o]).
Proof.
  intros Hc. split.
  - destruct (noteOf_strNote_pc f) as (s & Hs & Hn). exists s. split; [exact Hs|].
    assert (Tn : truthy (noteOf s) = true) by (rewrite Hn; reflexivity).
    destruct (parseNote_ok s c Hc Tn) as (c' & -> & _).
    rewrite (parsePitch_fst s c Hc), (pitchOf_note s Tn). auto.
  - destruct (noteOf_strNote_note f o) as (s & Hs & Hn). exists s. split; [exact Hs|].
    assert (Tn : truthy (noteOf s) = true) by (rewrite Hn; reflexivity).
    destruct (parseNote_ok s c Hc Tn) as (c' & -> & _).
    rewrite (parsePitch_fst s c Hc), (pitchOf_note s Tn). auto.
Qed.

Lemma note_name_roundtrip_witness :
  (exists s, strNote (Arr [tnl; Num (-9)]) = Str s /\
             fst (parseNote (Str s) ∅) = Arr [tnl; Num (-9)] /\
             fst (parsePitch (Str s) ∅) = Arr [tnl; Num (-9)]) /\
  (exists s, strNote (Arr [tnl; Num (-9); Num (-6)]) = Str s /\
             fst (parseNote (Str s) ∅) = Arr [tnl; Num (-9); Num (-6)] /\
             fst (parsePitch (Str s) ∅) = Arr [tnl; Num (-9); Num (-6)]).
Proof. apply (note_name_roundtrip ∅ (-9) (-6)). exact cache_ok_empty. Defined.

Lemma strIvl_text f o d n :
  d = 1 \/ d = -1 ->
  calcNum (decode (Arr [tnl; Num f; Num o; Num d])) = Num n -> 1 <= n ->
  exists s, strIvl (Arr [tnl; Num f; Num o; Num d]) = Str s /\
            ivlOf s = Arr [tnl; Num f; Num o; Num d] /\ noteOf s = Null.
Proof.
  intros [-> | ->] Hnum Hn.
  - apply (ivlOf_strIvl_asc f o n Hnum Hn).
  - apply (ivlOf_strIvl_desc f o n Hnum Hn).
Qed.

Lemma interval_text_parses s p c :
  cache_ok c -> ivlOf s = p -> noteOf s = Null ->
  fst (parseIvl (Str s) c) = p /\ fst (parsePitch (Str s) c) = p.
Proof.
  intros Hc Hi Hn.
  assert (Tn : truthy (noteOf s) = false) by (rewrite Hn; reflexivity).
  destruct (parseIvl_ok s c Hc Tn) as (c' & -> & _).
  rewrite (parsePitch_fst s c Hc), (pitchOf_ivl s Tn). auto.
Qed.

(** X5: on a consistent cache, the name [strIvl] writes for an interval of
    direction +1 or -1 whose interval number is positive is read back, by
    [parseIvl] and by [parsePitch], as the same interval; this is the case of
    every interval that [encode] builds from a step in 0..6 and an octave
    that is not negative. *)
Theorem interval_name_roundtrip (c : cache) :
  cache_ok c ->
  (forall f o d n,
     d = 1 \/ d = -1 ->
     fst (number (Arr [tnl; Num f; Num o; Num d]) c) = Num n -> 1 <= n ->
     exists s, strIvl (Arr [tnl; Num f; Num o; Num d]) = Str s /\
               fst (parseIvl (Str s) c) = Arr [tnl; Num f; Num o; Num d] /\
               fst (parsePitch (Str s) c) = Arr [tnl; Num f; Num o; Num d]) /\
  (forall s a o d,
     0 <= s <= 6 -> 0 <= o -> d = 1 \/ d = -1 ->
     exists t, strIvl (encode (Num s) (Num a) (Num o) (Num d)) = Str t /\
               fst (parseIvl (Str t) c) = encode (Num s) (Num a) (Num o) (Num d) /\
               fst (parsePitch (Str t) c) = encode (Num s) (Num a) (Num o) (Num d)).
Proof.
  intros Hc.
  assert (G : forall f o d n,
     d = 1 \/ d = -1 ->
     calcNum (decode (Arr [tnl; Num f; Num o; Num d])) = Num n -> 1 <= n ->
     exists s, strIvl (Arr [tnl; Num f; Num o; Num d]) = Str s /\
               fst (parseIvl (Str s) c) = Arr [tnl; Num f; Num o; Num d] /\
               fst (parsePitch (Str s) c) = Arr [tnl; Num f; Num o; Num d]).
  { intros f o d n Hd Hnum Hn.
    destruct (strIvl_text f o d n Hd Hnum Hn) as (s & Hs & Hi & Hnote).
    exists s. split; [exact Hs|]. apply interval_text_parses; assumption. }
  split.
  - intros f o d n Hd Hnum Hn. rewrite number_pitch in Hnum by reflexivity.
    apply (G f o d n Hd Hnum Hn).
  - intros s a o d Hs Ho Hd.
    assert (Hnum : calcNum (decode (encode (Num s) (Num a) (Num o) (Num d))) =
                   Num (s + 1 + 7 * o)).
    { destruct Hd as [-> | ->].
      - rewrite decode_encode_asc by exact Hs. unfold calcNum, isAsc. cbn [dir step oct].
        autorewrite with js. reflexivity.
      - apply (decode_encode_desc s a o Hs). }
    rewrite encode_ivl in * by exact Hs. cbv zeta in *.
    assert (E : (if d <? 0 then -1 else 1) = d) by (destruct Hd as [-> | ->]; reflexivity).
    rewrite E in *.
    apply (G _ _ d (s + 1 + 7 * o) Hd Hnum). lia.
Qed.

Lemma interval_name_roundtrip_witness :
  (exists s, strIvl (Arr [tnl; Num 12; Num (-7); Num (-1)]) = Str s /\
             fst (parseIvl (Str s) ∅) = Arr [tnl; Num 12; Num (-7); Num (-1)] /\
             fst (parsePitch (Str s) ∅) = Arr [tnl; Num 12; Num (-7); Num (-1)]) /\
  (exists t, strIvl (encode (Num 2) (Num (-1)) (Num 1) (Num (-1))) = Str t /\
             fst (parseIvl (Str t) ∅) = encode (Num 2) (Num (-1)) (Num 1) (Num (-1)) /\
             fst (parsePitch (Str t) ∅) = encode (Num 2) (Num (-1)) (Num 1) (Num (-1))).
Proof.
  destruct (interval_name_roundtrip ∅ cache_ok_empty) as [H1 H2]. split.
  - apply (H1 12 (-7) (-1) 2); [right; reflexivity | reflexivity | lia].
  - apply (H2 2 (-1) 1 (-1)); [lia | lia | right; reflexivity].
Defined.

(** ** The cache *)

Lemma cached_twice parser x c :
  cached parser x (snd (cached parser x c)) = cached parser x c.
Proof.
  destruct x as [| | | |s|]; try reflexivity.
  destruct (cached_cases parser s c) as [(v & E & Tv & H) | [_ H]]; rewrite H; cbn [snd].
  - exact H.
  - unfold cached. rewrite lookup_insert_eq. cbv zeta.
    destruct (truthy (parser s)); [reflexivity|].
    rewrite insert_insert_eq. reflexivity.
Qed.

(** X6: parsing is memoized without side effects on the result: a second
    [parseNote], [parseIvl] or [parsePitch] of the same value, on the cache
    the first call left, returns the same pitch and leaves that cache as it
    is.  This holds for every cache and every value, parseable or not. *)
Theorem parse_twice (x : value) (c : cache) :
  parseNote x (snd (parseNote x c)) = parseNote x c /\
  parseIvl x (snd (parseIvl x c)) = parseIvl x c /\
  parsePitch x (snd (parsePitch x c)) = parsePitch x c.
Proof.
  split; [apply cached_twice|]. split; [apply cached_twice|].
  unfold parsePitch, bind, parseNote, parseIvl.
  destruct x as [| | | |s|]; try reflexivity.
  destruct (cached_cases noteOf s c) as [(v & E & Tv & H) | [Hm H]]; rewrite H.
  - rewrite Tv. unfold ret. cbn [snd]. rewrite H, Tv. reflexivity.
  - destruct (truthy (noteOf s)) eqn:Tn.
    + unfold ret. cbn [snd]. unfold cached at 1. rewrite lookup_insert_eq. cbv zeta.
      rewrite Tn, Tn. reflexivity.
    + set (c1 := <[s := noteOf s]> c).
      assert (H1 : cached ivlOf (Str s) c1 = (ivlOf s, <[s := ivlOf s]> c1)).
      { unfold cached, c1. rewrite lookup_insert_eq. cbv zeta. rewrite Tn. reflexivity. }
      rewrite H1. cbn [snd].
      unfold cached at 1. rewrite lookup_insert_eq. cbv zeta.
      destruct (truthy (ivlOf s)) eqn:Ti; [rewrite Ti; reflexivity|].
      rewrite Tn. unfold cached. rewrite lookup_insert_eq. cbv zeta. rewrite Tn.
      rewrite !insert_insert_eq. reflexivity.
Qed.

(** X7: the two parsers share one cache.  Where the cache holds no pitch for
    a text, once [parseIvl] has parsed it [parseNote] returns that interval
    for the same text, and once [parseNote] has parsed it [parseIvl] returns
    that note. *)
Theorem shared_cache (s : string) (c : cache) :
  (forall v, c !! s = Some v -> truthy v = false) ->
  (truthy (ivlOf s) = true ->
   fst (parseNote (Str s) (snd (parseIvl (Str s) c))) = ivlOf s) /\
  (truthy (noteOf s) = true ->
   fst (parseIvl (Str s) (snd (parseNote (Str s) c))) = noteOf s).
Proof.
  intros Hm.
  assert (G : forall p q, truthy (p s) = true ->
              fst (cached q (Str s) (snd (cached p (Str s) c))) = p s).
  { intros p q Tp.
    destruct (cached_cases p s c) as [(v & E & Tv & _) | [_ ->]].
    - rewrite (Hm v E) in Tv. discriminate.
    - cbn [snd]. unfold cached. rewrite lookup_insert_eq. cbv zeta. rewrite Tp.
      reflexivity. }
  split; intros T; apply G, T.
Qed.

Lemma shared_cache_witness :
  fst (parseNote (Str "3M") (snd (parseIvl (Str "3M") ∅))) = ivlOf "3M" /\
  fst (parseIvl (Str "C4") (snd (parseNote (Str "C4") ∅))) = noteOf "C4".
Proof.
  split.
  - apply (shared_cache "3M" ∅); [intros v H; rewrite lookup_empty in H; discriminate|].
    reflexivity.
  - apply (shared_cache "C4" ∅); [intros v H; rewrite lookup_empty in H; discriminate|].
    reflexivity.
Defined.

(** ** Midi numbers *)

Lemma isPitch_Num n : isPitch (Num n) = false.
Proof. apply andb_false_r. Qed.

Lemma ivlOf_dec n : ivlOf (dec n) = Null.
Proof.
  pose proof (fun p => ivl_digits_first p "" I) as D.
  unfold ivlOf, ivlNttn.parse. destruct n as [|p|p].
  - reflexivity.
  - rewrite dec_pos.
    destruct (uint_head _ (DecimalPos.Unsigned.to_uint_nonnil p)) as (a0 & r0 & E & Hd).
    rewrite E, (sign_split_digit a0 r0 Hd), <- E.
    specialize (D p). rewrite append_empty in D. rewrite D, uint_of_dec.
    cbv zeta. rewrite of_uint_to_uint.
    destruct (Z.ltb_spec (Zpos p) 1); reflexivity.
  - rewrite dec_neg.
    specialize (D p). rewrite append_empty in D. rewrite D, uint_of_dec.
    cbv zeta. rewrite of_uint_to_uint.
    destruct (Z.ltb_spec (Zpos p) 1); reflexivity.
Qed.

Lemma parseNote_dec n c : cache_ok c -> fst (parseNote (Str (dec n)) c) = Null.
Proof.
  intros Hc.
  assert (Hn : noteOf (dec n) = Null) by apply noteOf_text_head, dec_head.
  assert (P : pitchOf (dec n) = Null).
  { unfold pitchOf, jsOr. rewrite Hn. apply ivlOf_dec. }
  unfold parseNote.
  destruct (cached_cases noteOf (dec n) c) as [(v & E & Tv & H) | [_ H]]; rewrite H; cbn [fst].
  - pose proof (Hc _ v E Tv) as Ev. rewrite P in Ev. subst v. discriminate.
  - exact Hn.
Qed.

Lemma midi_array f o l c :
  midi (Arr (tnl :: Num f :: Num o :: l)) c = (Num (7 * f + 12 * o + 12), c).
Proof.
  unfold midi, bind, asNote, notation, ret, height.
  change (isPitch (Arr (tnl :: Num f :: Num o :: l))) with true. cbn [negb]. unfold id.
  change (hasOct (Arr (tnl :: Num f :: Num o :: l))) with true. cbv iota.
  cbn [idx nth]. autorewrite with js. repeat (f_equal; try lia).
Qed.

(** X8: [midi] checks the range 0..127 on numbers only.  A number, or the
    decimal text of one, is returned as a number when it lies in 0..127 and
    gives null otherwise; a Note array gives 7 * fifths + 12 * octaves + 12
    whatever the result, and so does an Interval array, whose direction is
    ignored. *)
Theorem midi_values (c : cache) (n f o d : Z) :
  midi (Num n) c = (if (0 <=? n) && (n <? 128) then Num n else Null, c) /\
  midi (Arr [tnl; Num f; Num o]) c = (Num (7 * f + 12 * o + 12), c) /\
  midi (Arr [tnl; Num f; Num o; Num d]) c = (Num (7 * f + 12 * o + 12), c) /\
  (cache_ok c ->
   fst (midi (Str (dec n)) c) = if (0 <=? n) && (n <? 128) then Num n else Null).
Proof.
  split.
  { unfold midi, bind, asNote, notation, ret, isMidi. rewrite isPitch_Num. reflexivity. }
  split; [apply midi_array|]. split; [apply midi_array|].
  intros Hc. unfold midi, bind, asNote, notation. rewrite isPitch_Str. cbn [negb].
  pose proof (parseNote_dec n c Hc) as Hp.
  destruct (parseNote (Str (dec n)) c) as [p c1]. cbn [fst] in Hp. subst p.
  unfold ret. cbn [fst]. change (hasOct Null) with false. cbv iota.
  assert (Hn : toNumber (Str (dec n)) = Some n).
  { cbn [toNumber]. unfold strToNum. destruct (dec_head n) as (a & r & E & _).
    rewrite E, <- E. apply int_of_dec. }
  unfold isMidi, geZ, ltZ. rewrite Hn. reflexivity.
Qed.

Lemma midi_values_witness :
  fst (midi (Str (dec 60)) ∅) = if (0 <=? 60) && (60 <? 128) then Num 60 else Null.
Proof. apply (midi_values ∅ 60 0 0 0). exact cache_ok_empty. Defined.

(** X9: the chroma of a pitch is a number from 0 to 11 that does not depend
    on the octave: a Note and its Pitch Class have the same chroma, and it
    is the midi number of the Note modulo 12. *)
Theorem chroma_midi (c : cache) (f o : Z) :
  exists k, 0 <= k < 12 /\
    chroma (Arr [tnl; Num f]) c = (Num k, c) /\
    chroma (Arr [tnl; Num f; Num o]) c = (Num k, c) /\
    exists m, midi (Arr [tnl; Num f; Num o]) c = (Num m, c) /\ m mod 12 = k.
Proof.
  exists ((f * 7) mod 12). split; [apply Z.mod_pos_bound; lia|].
  assert (E : f * 7 - f * 7 / 12 * 12 = (f * 7) mod 12).
  { pose proof (Z.div_mod (f * 7) 12). lia. }
  split; [|split].
  - unfold chroma, noteFn, pitchOp, ret.
    change (isPitch (Arr [tnl; Num f])) with true. cbv iota. cbn [idx nth].
    autorewrite with js. rewrite E. reflexivity.
  - unfold chroma, noteFn, pitchOp, ret.
    change (isPitch (Arr [tnl; Num f; Num o])) with true. cbv iota. cbn [idx nth].
    autorewrite with js. rewrite E. reflexivity.
  - eexists. split; [apply midi_array|].
    replace (7 * f + 12 * o + 12) with (f * 7 + (o + 1) * 12) by lia.
    apply Z.mod_add. lia.
Qed.

Lemma note_operand a c f o :
  cache_ok c -> fst (asPitch a c) = Arr [tnl; Num f; Num o] ->
  forall c', cache_ok c' -> fst (midi a c') = Num (7 * f + 12 * o + 12).
Proof.
  intros Hc Ha c' Hc'. rewrite (asPitchVal_fst a c Hc) in Ha.
  unfold asPitchVal in Ha. destruct (isPitch a) eqn:Pa.
  - subst a. rewrite midi_array. reflexivity.
  - destruct a as [| | | |s|]; try discriminate Ha.
    assert (Hn : noteOf s = Arr [tnl; Num f; Num o]).
    { unfold pitchOf, jsOr in Ha. destruct (truthy (noteOf s)); [exact Ha|].
      destruct (ivlOf_cases s) as [E | (f' & o' & d' & E)]; rewrite E in Ha; discriminate. }
    destruct (midi_note_text s c' Hc') as (c2 & Em & _); [rewrite Hn; discriminate|].
    rewrite Em, Hn. cbn [fst]. change (hasOct (Arr [tnl; Num f; Num o])) with true.
    cbv iota. unfold height. cbn [idx nth]. autorewrite with js.
    repeat (f_equal; try lia).
Qed.

Lemma ivl_operand i c f o d :
  cache_ok c -> fst (asPitch i c) = Arr [tnl; Num f; Num o; Num d] ->
  forall c', cache_ok c' -> fst (semitones i c') = Num (7 * f + 12 * o).
Proof.
  intros Hc Hi c' Hc'. rewrite (asPitchVal_fst i c Hc) in Hi.
  unfold asPitchVal in Hi. unfold semitones, ivlFn, pitchOp.
  destruct (isPitch i) eqn:Pi.
  - subst i. unfold ret, height. cbn [fst idx nth]. autorewrite with js.
    repeat (f_equal; try lia).
  - destruct i as [| | | |s|]; try discriminate Hi.
    assert (Tn : truthy (noteOf s) = false).
    { unfold pitchOf, jsOr in Hi. destruct (truthy (noteOf s)) eqn:T; [|reflexivity].
      destruct (noteOf_cases s) as [E | [[f' E] | (f' & o' & E)]];
        rewrite E in Hi; discriminate. }
    rewrite (pitchOf_ivl s Tn) in Hi.
    destruct (parseIvl_ok s c' Hc' Tn) as (c2 & E & _).
    unfold bind. rewrite E, Hi. cbn [truthy]. unfold ret, height, toIvlStr, notation.
    cbn [fst idx nth]. autorewrite with js.
    rewrite isPitch_Num. cbn [negb]. unfold id.
    repeat (f_equal; try lia).
Qed.

(** X10: transposing a note by an interval adds the interval's semitones to
    the midi number.  On consistent caches, if [a] stands for a Note and
    [i] for an Interval (as arrays or as text), then the midi number of
    [transpose], with the operands in either order, is the midi number of
    [a] plus [semitones] of [i]. *)
Theorem midi_transpose (c c' : cache) (a i : value) (fa oa fi oi di : Z) :
  cache_ok c -> cache_ok c' ->
  fst (asPitch a c) = Arr [tnl; Num fa; Num oa] ->
  fst (asPitch i c) = Arr [tnl; Num fi; Num oi; Num di] ->
  fst (midi (fst (transpose i a c)) c') =
    jsAdd (fst (midi a c')) (fst (semitones i c')) /\
  fst (midi (fst (transpose a i c)) c') =
    jsAdd (fst (midi a c')) (fst (semitones i c')).
Proof.
  intros Hc Hc' Ha Hi.
  rewrite (note_operand a c fa oa Hc Ha c' Hc'), (ivl_operand i c fi oi di Hc Hi c' Hc').
  rewrite (asPitchVal_fst a c Hc) in Ha. rewrite (asPitchVal_fst i c Hc) in Hi.
  destruct (transposeVal_note a i fa oa fi oi di Ha Hi) as [E1 E2].
  destruct (noteOf_strNote_note (fi + fa) (oi + oa)) as (s & Hs & Hn).
  assert (G : fst (midi (Str s) c') = Num (7 * fa + 12 * oa + 12 + (7 * fi + 12 * oi))).
  { destruct (midi_note_text s c' Hc') as (c2 & Em & _); [rewrite Hn; discriminate|].
    rewrite Em, Hn. cbn [fst].
    change (hasOct (Arr [tnl; Num (fi + fa); Num (oi + oa)])) with true.
    cbv iota. unfold height. cbn [idx nth]. autorewrite with js.
    repeat (f_equal; try lia). }
  autorewrite with js. split.
  - destruct (transpose_ok i a c Hc) as (c1 & -> & _). cbn [fst]. rewrite E2, Hs. exact G.
  - destruct (transpose_ok a i c Hc) as (c1 & -> & _). cbn [fst]. rewrite E1, Hs. exact G.
Qed.

Lemma midi_transpose_witness :
  fst (midi (fst (transpose (Str "3M") (Str "C4") ∅)) ∅) =
    jsAdd (fst (midi (Str "C4") ∅)) (fst (semitones (Str "3M") ∅)) /\
  fst (midi (fst (transpose (Str "C4") (Str "3M") ∅)) ∅) =
    jsAdd (fst (midi (Str "C4") ∅)) (fst (semitones (Str "3M") ∅)).
Proof.
  apply (midi_transpose ∅ ∅ (Str "C4") (Str "3M") 0 4 4 (-2) 1);
    [exact cache_ok_empty | exact cache_ok_empty | reflexivity | reflexivity].
Defined.

(** ** Chromatic note names *)

Lemma rem12 q r :
  0 <= q -> 0 <= r < 12 -> Z.rem (12 * q + r) 12 = r /\ (12 * q + r) / 12 = q.
Proof.
  intros Hq Hr. rewrite Z.rem_mod_nonneg by lia. split.
  - symmetry. apply Z.mod_unique with q; lia.
  - symmetry. apply Z.div_unique with r; lia.
Qed.

Lemma chromatic_note (us : bool) (m : Z) :
  0 <= m ->
  exists s a,
    0 <= s <= 6 /\ (a = 0 \/ a = if us then 1 else -1) /\
    chromatic us (Num m) = strNote (encode (Num s) (Num a) (Num (m / 12 - 1)) Undef) /\
    7 * (fifthsZ s + 7 * a) + 12 * (m / 12 - 1 - spanZ s - 4 * a) + 12 = m.
Proof.
  intros Hm.
  pose proof (Z.div_mod m 12 ltac:(lia)) as D.
  pose proof (Z.mod_pos_bound m 12 ltac:(lia)) as B.
  assert (Hq : 0 <= m / 12) by (apply Z.div_pos; lia).
  remember (m / 12) as q eqn:Eq. remember (m mod 12) as r eqn:Er.
  assert (R0 : jsRem (Num m) 12 = Num r).
  { rewrite jsRem_num, D. f_equal. apply rem12; lia. }
  assert (Rm : 1 <= r -> jsRem (Num (m - 1)) 12 = Num (r - 1)).
  { intros H. rewrite jsRem_num. f_equal.
    replace (m - 1) with (12 * q + (r - 1)) by lia. apply rem12; lia. }
  assert (Rp : r < 11 -> jsRem (Num (m + 1)) 12 = Num (r + 1)).
  { intros H. rewrite jsRem_num. f_equal.
    replace (m + 1) with (12 * q + (r + 1)) by lia. apply rem12; lia. }
  unfold chromatic, midiStep, notePitch.
  rewrite jsSub_num, jsAdd_num, floorDiv_num, jsSub_num, R0, <- Eq.
  assert (C : r = 0 \/ r = 1 \/ r = 2 \/ r = 3 \/ r = 4 \/ r = 5 \/ r = 6 \/
              r = 7 \/ r = 8 \/ r = 9 \/ r = 10 \/ r = 11) by lia.
  destruct C as [C|[C|[C|[C|[C|[C|[C|[C|[C|[C|[C|C]]]]]]]]]]]; rewrite C in *;
    rewrite ?Rm, ?Rp by lia; simpl (arrGet CHROMATIC _); cbn [isNull negb];
    destruct us; cbv iota;
    (eexists _, _; split; [|split; [|split; [reflexivity|]]];
     [lia | auto | simpl (fifthsZ _); simpl (spanZ _); lia]).
Qed.

(** X11: a chromatic name has at most one accidental.  For a midi number
    that is not negative, [chromatic] returns the name of the note whose
    step is one of the seven naturals, whose alteration is 0, or else +1
    with sharps and -1 with flats, and whose octave is floor(m / 12) - 1. *)
Theorem chromatic_spelling (useSharps : bool) (m : Z) :
  0 <= m ->
  exists n s a,
    chromatic useSharps (Num m) = strNote n /\ isPitchNote n = true /\
    decode n = {| step := Num s; alt := Num a; oct := Num (m / 12 - 1); dir := Null |} /\
    0 <= s <= 6 /\ (a = 0 \/ a = if useSharps then 1 else -1).
Proof.
  intros Hm. destruct (chromatic_note useSharps m Hm) as (s & a & Hs & Ha & E & _).
  exists (encode (Num s) (Num a) (Num (m / 12 - 1)) Undef), s, a.
  split; [exact E|]. split; [rewrite encode_note by exact Hs; reflexivity|].
  split; [apply decode_encode_note, Hs|]. auto.
Qed.

Lemma chromatic_spelling_witness :
  exists n s a,
    chromatic false (Num 61) = strNote n /\ isPitchNote n = true /\
    decode n = {| step := Num s; alt := Num a; oct := Num (61 / 12 - 1); dir := Null |} /\
    0 <= s <= 6 /\ (a = 0 \/ a = if false then 1 else -1).
Proof. apply (chromatic_spelling false 61). lia. Defined.

(** X12: [midi] undoes [chromatic], and so [fromMidi]: on a consistent
    cache, the name made for a midi number that is not negative has that
    midi number, with sharps or with flats, also above 127. *)
Theorem midi_of_chromatic (useSharps : bool) (m : Z) (c : cache) :
  0 <= m -> cache_ok c ->
  fst (midi (chromatic useSharps (Num m)) c) = Num m /\
  fst (midi (fromMidi (Num m)) c) = Num m.
Proof.
  intros Hm Hc.
  assert (G : forall us, fst (midi (chromatic us (Num m)) c) = Num m).
  { intros us. destruct (chromatic_note us m Hm) as (s & a & Hs & _ & E & Hv).
    rewrite E, encode_note by exact Hs.
    destruct (noteOf_strNote_note (fifthsZ s + 7 * a) (m / 12 - 1 - spanZ s - 4 * a))
      as (t & Ht & Hn).
    rewrite Ht.
    destruct (midi_note_text t c Hc) as (c' & Em & _); [rewrite Hn; discriminate|].
    rewrite Em, Hn. cbn [fst].
    change (hasOct (Arr [tnl; Num (fifthsZ s + 7 * a);
                         Num (m / 12 - 1 - spanZ s - 4 * a)])) with true.
    cbv iota. unfold height. cbn [idx nth]. autorewrite with js. f_equal. lia. }
  split; [apply G|]. apply (G false).
Qed.

Lemma midi_of_chromatic_witness :
  fst (midi (chromatic true (Num 130)) ∅) = Num 130 /\
  fst (midi (fromMidi (Num 130)) ∅) = Num 130.
Proof. apply (midi_of_chromatic true 130 ∅); [lia | exact cache_ok_empty]. Defined.

(** ** The parts of a note *)

Lemma decode_encode_pc s a :
  0 <= s <= 6 ->
  decode (encode (Num s) (Num a) Undef Undef) =
  {| step := Num s; alt := Num a; oct := Null; dir := Null |}.
Proof.
  intros Hs. rewrite encode_pc, decode_pc by exact Hs.
  destruct (fifths_of_step_alt s a Hs) as [-> ->].
  rewrite stepZ_fifthsZ by exact Hs. reflexivity.
Qed.

(** X13: the properties of a note read back what it was encoded from.  For
    a step in 0..6, [letter] is the letter at that place of CDEFGAB,
    [accidentals] is the alteration written as that many sharps or flats,
    [octave] is the octave and [pc] is the Pitch Class encoded from the same
    step and alteration; the Pitch Class has the same letter and
    accidentals, and a null octave. *)
Theorem note_components (c : cache) (s a o : Z) :
  0 <= s <= 6 ->
  let n := encode (Num s) (Num a) (Num o) Undef in
  let p := encode (Num s) (Num a) Undef Undef in
  letter n c = (idx (Str "CDEFGAB") (Z.to_nat s), c) /\
  accidentals n c = (Str (rep (if a <? 0 then "b" else "#") (Z.abs_nat a)), c) /\
  octave n c = (Num o, c) /\
  pc n c = (p, c) /\
  letter p c = letter n c /\ accidentals p c = accidentals n c /\
  octave p c = (Null, c).
Proof.
  intros Hs n p.
  assert (Pn : isPitch n = true) by (subst n; rewrite encode_note by exact Hs; reflexivity).
  assert (Pp : isPitch p = true) by (subst p; rewrite encode_pc by exact Hs; reflexivity).
  assert (Dn : decode n = {| step := Num s; alt := Num a; oct := Num o; dir := Null |})
    by apply decode_encode_note, Hs.
  assert (Dp : decode p = {| step := Num s; alt := Num a; oct := Null; dir := Null |})
    by apply decode_encode_pc, Hs.
  assert (L : toLetter (Num s) = idx (Str "CDEFGAB") (Z.to_nat s)).
  { seven s; reflexivity. }
  unfold letter, accidentals, octave, pc, noteFn, pitchFn, pitchOp, ret.
  rewrite Pn, Pp, Dn, Dp. cbn [step alt oct]. rewrite L, toAcc_num.
  repeat split.
  subst n p. rewrite encode_note, encode_pc by exact Hs. reflexivity.
Qed.

Lemma note_components_witness :
  let n := encode (Num 3) (Num 1) (Num 4) Undef in
  let p := encode (Num 3) (Num 1) Undef Undef in
  letter n ∅ = (idx (Str "CDEFGAB") (Z.to_nat 3), ∅) /\
  accidentals n ∅ = (Str (rep (if 1 <? 0 then "b" else "#") (Z.abs_nat 1)), ∅) /\
  octave n ∅ = (Num 4, ∅) /\
  pc n ∅ = (p, ∅) /\
  letter p ∅ = letter n ∅ /\ accidentals p ∅ = accidentals n ∅ /\
  octave p ∅ = (Null, ∅).
Proof. apply (note_components ∅ 3 1 4). lia. Defined.

(** X14: [pc] on a name drops the octave: on a consistent cache, [pc] of the
    name of a Note is the name of the Pitch Class that has the same fifths,
    and [pc] of that name is the name again. *)
Theorem pc_of_name (c c' : cache) (f o : Z) :
  cache_ok c -> cache_ok c' ->
  fst (pc (strNote (Arr [tnl; Num f; Num o])) c) = strNote (Arr [tnl; Num f]) /\
  fst (pc (fst (pc (strNote (Arr [tnl; Num f; Num o])) c)) c') =
    strNote (Arr [tnl; Num f]).
Proof.
  intros Hc Hc'.
  assert (G : forall s l c0, cache_ok c0 -> noteOf s = Arr (tnl :: Num f :: l) ->
              fst (pc (Str s) c0) = strNote (Arr [tnl; Num f])).
  { intros s l c0 H0 Hn. unfold pc, noteFn, pitchOp, bind. rewrite isPitch_Str.
    destruct (parseNote_ok s c0 H0) as (c1 & -> & _); [rewrite Hn; reflexivity|].
    rewrite Hn. reflexivity. }
  destruct (noteOf_strNote_note f o) as (s & Hs & Hn).
  destruct (noteOf_strNote_pc f) as (t & Ht & Hm).
  rewrite Hs, (G s [Num o] c Hc Hn). split; [reflexivity|].
  rewrite Ht. rewrite (G t [] c' Hc' Hm). exact Ht.
Qed.

Lemma pc_of_name_witness :
  fst (pc (strNote (Arr [tnl; Num 7; Num 0])) ∅) = strNote (Arr [tnl; Num 7]) /\
  fst (pc (fst (pc (strNote (Arr [tnl; Num 7; Num 0])) ∅)) ∅) =
    strNote (Arr [tnl; Num 7]).
Proof. apply (pc_of_name ∅ ∅ 7 0); exact cache_ok_empty. Defined.

(** ** Simple intervals *)

Lemma simplify_num f o d c :
  d = 1 \/ d = -1 ->
  simplify (Arr [tnl; Num f; Num o; Num d]) c =
  (encode (Num (stepZ ((d * f + 1) mod 7))) (Num ((d * f + 1) / 7)) (Num 0) (Num d), c).
Proof.
  intros Hd. pose proof (stepZ_range ((d * f + 1) mod 7)) as Hs.
  rewrite encode_ivl by exact Hs. cbv zeta. rewrite encode_decode_fifths.
  unfold simplify, ivlFn, pitchOp, ret.
  change (isPitch (Arr [tnl; Num f; Num o; Num d])) with true. cbv iota zeta.
  cbn [idx nth]. rewrite jsMul_num, decodeStep_num, decodeAlt_num.
  rewrite FIFTH_OCTS_get by exact Hs. autorewrite with js.
  destruct Hd as [-> | ->].
  - change (1 <? 0) with false. cbv iota. repeat (f_equal; try lia).
  - change (-1 <? 0) with true. cbv iota. repeat (f_equal; try lia).
Qed.

Lemma step_inversion f :
  let s := stepZ ((-1 * f + 1) mod 7) in
  let s' := stepZ ((f + 1) mod 7) in
  s + s' = 0 \/ s + s' = 7.
Proof.
  cbv zeta. rewrite (proj1 (neg_residue f)).
  pose proof (Z.mod_pos_bound (f + 1) 7 ltac:(lia)) as B.
  remember ((f + 1) mod 7) as r. seven r; vm_compute; auto.
Qed.

(** X15: [simplify] brings an interval of direction +1 or -1 into the first
    octave: the result is an interval whose number lies in 1..7 and differs
    from the number of the operand by a multiple of 7, and simplifying it
    again changes nothing. *)
Theorem simplify_simple (c : cache) (f o d : Z) :
  d = 1 \/ d = -1 ->
  exists r n n0,
    simplify (Arr [tnl; Num f; Num o; Num d]) c = (r, c) /\
    isInterval r = true /\
    number r c = (Num n, c) /\ 1 <= n <= 7 /\
    number (Arr [tnl; Num f; Num o; Num d]) c = (Num n0, c) /\ (n0 - n) mod 7 = 0 /\
    simplify r c = (r, c).
Proof.
  intros Hd. pose proof (stepZ_range ((d * f + 1) mod 7)) as Hs.
  set (s := stepZ ((d * f + 1) mod 7)) in *. set (a := (d * f + 1) / 7).
  assert (Er : encode (Num s) (Num a) (Num 0) (Num d) =
               Arr [tnl; Num f; Num (d * (0 - spanZ s - 4 * a)); Num d]).
  { rewrite encode_ivl by exact Hs. cbv zeta. subst s a. rewrite encode_decode_fifths.
    destruct Hd as [-> | ->]; [change (1 <? 0) with false | change (-1 <? 0) with true];
      cbv iota; repeat (f_equal; try lia). }
  assert (Nr : calcNum (decode (encode (Num s) (Num a) (Num 0) (Num d))) = Num (s + 1)).
  { destruct Hd as [-> | ->].
    - rewrite decode_encode_asc by exact Hs. unfold calcNum, isAsc. cbn [dir step oct].
      autorewrite with js. change (1 =? 1) with true. cbv iota. f_equal. lia.
    - destruct (decode_encode_desc s a 0 Hs) as (_ & _ & -> & _). f_equal. lia. }
  assert (D0 : d <> 0) by lia.
  pose proof (decode_ivl f o d D0) as Dd.
  set (s' := stepZ ((f + 1) mod 7)) in *. set (oc := o + 4 * ((f + 1) / 7) + spanZ s') in *.
  exists (encode (Num s) (Num a) (Num 0) (Num d)), (s + 1),
         (if d =? 1 then s' + 1 + 7 * oc else 8 - s' - 7 * (oc + 1)).
  split; [apply simplify_num, Hd|].
  split; [rewrite Er; reflexivity|].
  split; [rewrite number_pitch by (rewrite Er; reflexivity); rewrite Nr; reflexivity|].
  split; [lia|].
  split.
  { rewrite number_pitch by reflexivity. rewrite Dd. unfold calcNum, isAsc.
    cbn [dir step oct]. autorewrite with js.
    destruct (d =? 1); reflexivity. }
  split.
  { destruct Hd as [-> | ->].
    - change (1 =? 1) with true. cbv iota. subst s s'.
      replace (1 * f) with f by lia.
      replace (stepZ ((f + 1) mod 7) + 1 + 7 * oc - (stepZ ((f + 1) mod 7) + 1))
        with (oc * 7) by lia.
      apply Z.mod_mul. lia.
    - change (-1 =? 1) with false. cbv iota.
      pose proof (step_inversion f) as Hi. cbv zeta in Hi. fold s s' in Hi.
      destruct Hi as [Hi | Hi].
      + replace (8 - s' - 7 * (oc + 1) - (s + 1)) with ((- oc) * 7) by lia.
        apply Z.mod_mul. lia.
      + replace (8 - s' - 7 * (oc + 1) - (s + 1)) with ((- oc - 1) * 7) by lia.
        apply Z.mod_mul. lia. }
  rewrite Er at 1. rewrite simplify_num by exact Hd. reflexivity.
Qed.

Lemma simplify_simple_witness :
  exists r n n0,
    simplify (Arr [tnl; Num (-4); Num (-4); Num (-1)]) ∅ = (r, ∅) /\
    isInterval r = true /\
    number r ∅ = (Num n, ∅) /\ 1 <= n <= 7 /\
    number (Arr [tnl; Num (-4); Num (-4); Num (-1)]) ∅ = (Num n0, ∅) /\
    (n0 - n) mod 7 = 0 /\
    simplify r ∅ = (r, ∅).
Proof. apply (simplify_simple ∅ (-4) (-4) (-1)). right. reflexivity. Defined.

(** X16: [simpleNum] reads the step that [decode] gives, and [decode] does
    not undo the inversion of a descending interval.  For the interval
    encoded from a step in 0..6, [number] is step + 1 + 7 * octaves in both
    directions, and [simpleNum] is step + 1 when the direction is +1 but the
    simple number of the inverted interval, (7 - step) mod 7 + 1, when the
    direction is -1. *)
Theorem simpleNum_of_encoded (c : cache) (s a o : Z) :
  0 <= s <= 6 ->
  number (encode (Num s) (Num a) (Num o) (Num 1)) c = (Num (s + 1 + 7 * o), c) /\
  number (encode (Num s) (Num a) (Num o) (Num (-1))) c = (Num (s + 1 + 7 * o), c) /\
  simpleNum (encode (Num s) (Num a) (Num o) (Num 1)) c = (Num (s + 1), c) /\
  simpleNum (encode (Num s) (Num a) (Num o) (Num (-1))) c =
    (Num ((7 - s) mod 7 + 1), c).
Proof.
  intros Hs.
  assert (P : forall d, isPitch (encode (Num s) (Num a) (Num o) (Num d)) = true)
    by (intros d; rewrite encode_ivl by exact Hs; reflexivity).
  destruct (decode_encode_desc s a o Hs) as (_ & Hst & Hn & _). cbv zeta in Hst, Hn.
  unfold simpleNum, ivlFn, pitchOp, ret. rewrite !number_pitch, !P by apply P.
  cbv zeta. rewrite Hn, Hst. rewrite decode_encode_asc by exact Hs.
  unfold calcNum, isAsc. cbn [dir step oct]. autorewrite with js.
  change (1 =? 1) with true. cbv iota. repeat split.
Qed.

Lemma simpleNum_of_encoded_witness :
  number (encode (Num 2) (Num 0) (Num 0) (Num 1)) ∅ = (Num (2 + 1 + 7 * 0), ∅) /\
  number (encode (Num 2) (Num 0) (Num 0) (Num (-1))) ∅ = (Num (2 + 1 + 7 * 0), ∅) /\
  simpleNum (encode (Num 2) (Num 0) (Num 0) (Num 1)) ∅ = (Num (2 + 1), ∅) /\
  simpleNum (encode (Num 2) (Num 0) (Num 0) (Num (-1))) ∅ = (Num ((7 - 2) mod 7 + 1), ∅).
Proof. apply (simpleNum_of_encoded ∅ 2 0 0). lia. Defined.

(** ** Operands in either order *)

Lemma pitchOf_cases s :
  pitchOf s = Null \/ (exists f, pitchOf s = Arr [tnl; Num f]) \/
  (exists f o, pitchOf s = Arr [tnl; Num f; Num o]) \/
  (exists f o d, pitchOf s = Arr [tnl; Num f; Num o; Num d]).
Proof.
  unfold pitchOf, jsOr.
  destruct (noteOf_cases s) as [E | [[f E] | (f & o & E)]]; rewrite E; cbn [truthy].
  - destruct (ivlOf_cases s) as [E' | (f & o & d & E')]; rewrite E'; [left; reflexivity|].
    right; right; right. exists f, o, d. reflexivity.
  - right; left. exists f. reflexivity.
  - right; right; left. exists f, o. reflexivity.
Qed.

Lemma asPitchVal_cases a :
  isPitch a = false ->
  asPitchVal a = Null \/ (exists f, asPitchVal a = Arr [tnl; Num f]) \/
  (exists f o, asPitchVal a = Arr [tnl; Num f; Num o]) \/
  (exists f o d, asPitchVal a = Arr [tnl; Num f; Num o; Num d]).
Proof.
  intros H. unfold asPitchVal. rewrite H.
  destruct a; try (left; reflexivity). apply pitchOf_cases.
Qed.

Lemma transposeVal_comm a b :
  isPitch a = false -> isPitch b = false -> transposeVal a b = transposeVal b a.
Proof.
  intros Ha Hb. unfold transposeVal. cbv zeta.
  destruct (asPitchVal_cases a Ha) as [Ea|[(f & Ea)|[(f & o & Ea)|(f & o & d & Ea)]]];
    destruct (asPitchVal_cases b Hb) as [Eb|[(g & Eb)|[(g & p & Eb)|(g & p & e & Eb)]]];
    rewrite Ea, Eb; try reflexivity.
  change (isInterval (Arr [tnl; Num f; Num o; Num d])) with true.
  change (isInterval (Arr [tnl; Num g; Num p; Num e])) with true. cbv iota.
  unfold trBy. cbn [isNull len List.length idx nth].
  autorewrite with js. rewrite (Z.add_comm g f), (Z.add_comm p o). reflexivity.
Qed.

(** X17: [transpose] takes its operands in either order.  On a consistent
    cache, for operands that are not pitch arrays, such as names,
    [transpose(a, b)] and [transpose(b, a)] return the same value. *)
Theorem transpose_commutes (a b : value) (c : cache) :
  cache_ok c -> isPitch a = false -> isPitch b = false ->
  fst (transpose a b c) = fst (transpose b a c).
Proof.
  intros Hc Ha Hb.
  destruct (transpose_ok a b c Hc) as (c1 & -> & _).
  destruct (transpose_ok b a c Hc) as (c2 & -> & _).
  apply transposeVal_comm; assumption.
Qed.

Lemma transpose_commutes_witness :
  fst (transpose (Str "Eb4") (Str "-2m") ∅) = fst (transpose (Str "-2m") (Str "Eb4") ∅).
Proof.
  apply (transpose_commutes (Str "Eb4") (Str "-2m") ∅);
    [exact cache_ok_empty | reflexivity | reflexivity].
Defined.

(** X18: the distance between two notes measures the difference of their
    midi numbers.  On a consistent cache, for operands that stand for Notes,
    [distance] returns the name of an interval whose [semitones] are the
    midi number of the second minus that of the first, and whose direction
    is -1 exactly when that difference is negative. *)
Theorem distance_semitones (a b : value) (c : cache) (fa oa fb ob : Z) :
  cache_ok c ->
  fst (asPitch a c) = Arr [tnl; Num fa; Num oa] ->
  fst (asPitch b c) = Arr [tnl; Num fb; Num ob] ->
  exists r,
    fst (distance a b c) = strIvl r /\ isInterval r = true /\
    fst (semitones r c) = jsSub (fst (midi b c)) (fst (midi a c)) /\
    idx r 3 = if ltZ (jsSub (fst (midi b c)) (fst (midi a c))) 0
              then Num (-1) else Num 1.
Proof.
  intros Hc Ha Hb.
  rewrite (note_operand a c fa oa Hc Ha c Hc), (note_operand b c fb ob Hc Hb c Hc).
  rewrite (asPitchVal_fst a c Hc) in Ha. rewrite (asPitchVal_fst b c Hc) in Hb.
  exists (ivlp (Num (fb - fa)) (Num (ob - oa))).
  destruct (distance_ok a b c Hc) as (c1 & -> & _). cbn [fst].
  split; [apply (distanceVal_notes a b fa oa fb ob Ha Hb)|].
  split; [destruct (ivlp_num (fb - fa) (ob - oa)) as [-> | ->]; reflexivity|].
  autorewrite with js. split.
  - unfold semitones, ivlFn, pitchOp, ret, height, ivlp.
    change (isPitch (Arr [tnl; Num (fb - fa); Num (ob - oa); _])) with true.
    cbv iota. cbn [fst idx nth]. autorewrite with js. f_equal. lia.
  - unfold ivlp, calcDir. cbn [idx nth]. autorewrite with js.
    replace (7 * (fb - fa) + 12 * (ob - oa))
      with (7 * fb + 12 * ob + 12 - (7 * fa + 12 * oa + 12)) by lia.
    reflexivity.
Qed.

Lemma distance_semitones_witness :
  exists r,
    fst (distance (Str "C4") (Str "G3") ∅) = strIvl r /\ isInterval r = true /\
    fst (semitones r ∅) = jsSub (fst (midi (Str "G3") ∅)) (fst (midi (Str "C4") ∅)) /\
    idx r 3 = if ltZ (jsSub (fst (midi (Str "G3") ∅)) (fst (midi (Str "C4") ∅))) 0
              then Num (-1) else Num 1.
Proof.
  apply (distance_semitones (Str "C4") (Str "G3") ∅ 0 4 1 3);
    [exact cache_ok_empty | reflexivity | reflexivity].
Defined.

(** ** Lists of items *)

Lemma append_assoc3 s t u : (s +:+ t) +:+ u = s +:+ (t +:+ u).
Proof.
  induction s as [|a s IH]; [rewrite !append_nil; reflexivity|].
  rewrite !append_cons, IH. reflexivity.
Qed.

Lemma itemChar_facts a : isItemChar a = true -> isSpace a = false /\ isDelim a = false.
Proof.
  unfold isItemChar. intros H.
  apply andb_true_iff in H as [H Hd]. apply andb_true_iff in H as [_ Hs].
  split; apply negb_true_iff; assumption.
Qed.

Lemma isItem_cons a r :
  isItem (String a r) = true ->
  isItemChar a = true /\ (r = EmptyString \/ isItem r = true).
Proof.
  destruct r as [|b r]; cbn [isItem]; [auto|].
  intros H. apply andb_true_iff in H as [H1 H2]. auto.
Qed.

Lemma isItem_head x :
  isItem x = true -> exists a r, x = String a r /\ isItemChar a = true.
Proof.
  destruct x as [|a r]; [discriminate|]. intros H.
  exists a, r. split; [reflexivity|]. apply (isItem_cons a r H).
Qed.

Lemma trimStart_blanks k s : trimStart (rep " " k +:+ s) = trimStart s.
Proof.
  induction k as [|k IH]; cbn [rep]; [rewrite append_nil; reflexivity|].
  rewrite !append_cons, append_nil. cbn [trimStart].
  change (isSpace " ") with true. cbv iota. exact IH.
Qed.

Lemma trimEnd_app s t :
  trimEnd (s +:+ t) =
  match trimEnd t with EmptyString => trimEnd s | u => s +:+ u end.
Proof.
  induction s as [|a s IH].
  - rewrite append_nil. destruct (trimEnd t); [reflexivity|rewrite append_nil; reflexivity].
  - rewrite append_cons. cbn [trimEnd]. rewrite IH.
    destruct (trimEnd t) as [|b u]; [reflexivity|].
    rewrite append_cons.
    destruct s as [|a' s']; [rewrite append_nil; reflexivity|].
    rewrite append_cons. reflexivity.
Qed.

Lemma trimEnd_blanks k : trimEnd (rep " " k) = EmptyString.
Proof.
  induction k as [|k IH]; [reflexivity|].
  cbn [rep]. rewrite append_cons, append_nil. cbn [trimEnd]. rewrite IH. reflexivity.
Qed.

Lemma trimEnd_item x : isItem x = true -> trimEnd x = x.
Proof.
  induction x as [|a r IH]; [discriminate|]. intros H.
  destruct (isItem_cons a r H) as [Ha [-> | Hr]].
  - cbn [trimEnd]. destruct (itemChar_facts a Ha) as [-> _]. reflexivity.
  - cbn [trimEnd]. rewrite (IH Hr). destruct r; [discriminate Hr|reflexivity].
Qed.

Lemma joinSep_cons sep x y r :
  joinSep sep (x :: y :: r) = x +:+ sep +:+ joinSep sep (y :: r).
Proof. reflexivity. Qed.

Lemma joinSep_head sep items :
  items <> [] -> Forall (fun x => isItem x = true) items ->
  exists a r, joinSep sep items = String a r /\ isItemChar a = true.
Proof.
  intros Hne Hall. destruct items as [|x l]; [congruence|].
  inversion Hall as [|x' l' Hx Hl]; subst.
  destruct (isItem_head x Hx) as (a & r & -> & Ha).
  destruct l as [|y l]; [exists a, r; auto|].
  rewrite joinSep_cons, append_cons. eauto.
Qed.

Lemma trimEnd_join sep items :
  items <> [] -> Forall (fun x => isItem x = true) items ->
  trimEnd (joinSep sep items) = joinSep sep items.
Proof.
  induction items as [|x l IH]; [congruence|]. intros _ Hall.
  inversion Hall as [|x' l' Hx Hl]; subst.
  destruct l as [|y l]; [apply trimEnd_item, Hx|].
  rewrite joinSep_cons, !trimEnd_app, IH by (congruence || assumption).
  destruct (joinSep_head sep (y :: l) ltac:(congruence) Hl) as (a & r & -> & _).
  destruct sep as [|b sep']; [rewrite append_nil|rewrite append_cons]; reflexivity.
Qed.

Lemma split_item x acc rest :
  (x = EmptyString \/ isItem x = true) ->
  splitSEP InTok acc (x +:+ rest) = splitSEP InTok (acc +:+ x) rest.
Proof.
  revert acc. induction x as [|a r IH]; intros acc H.
  - rewrite append_nil, append_empty. reflexivity.
  - destruct H as [H | H]; [discriminate H|].
    destruct (isItem_cons a r H) as [Ha Hr].
    destruct (itemChar_facts a Ha) as [Hs Hd].
    rewrite append_cons. cbn [splitSEP]. rewrite Hs, Hd.
    rewrite (IH _ Hr), append_assoc3, append_cons, append_nil. reflexivity.
Qed.

Lemma split_blanks st k s :
  st = InWs \/ st = InTr ->
  splitSEP st EmptyString (rep " " k +:+ s) = splitSEP st EmptyString s.
Proof.
  intros Hst. induction k as [|k IH]; cbn [rep]; [rewrite append_nil; reflexivity|].
  rewrite !append_cons, append_nil.
  destruct Hst as [-> | ->]; cbn [splitSEP]; change (isSpace " ") with true;
    cbv iota; apply IH.
Qed.

Lemma split_sep n d m acc a r :
  isSepText n d m -> isItemChar a = true ->
  splitSEP InTok acc (sepText n d m +:+ String a r) =
  acc :: splitSEP InTok (String a EmptyString) r.
Proof.
  intros Hsep Ha. destruct (itemChar_facts a Ha) as [Hs Hd].
  assert (Tr : splitSEP InTr EmptyString (rep " " m +:+ String a r) =
               splitSEP InTok (String a EmptyString) r).
  { rewrite split_blanks by auto. cbn [splitSEP]. rewrite Hs, Hd. reflexivity. }
  assert (Ws : forall k, splitSEP InWs EmptyString (rep " " k +:+ String a r) =
                         splitSEP InTok (String a EmptyString) r).
  { intros k. rewrite split_blanks by auto. cbn [splitSEP]. rewrite Hs, Hd. reflexivity. }
  unfold sepText. rewrite !append_assoc3.
  destruct Hsep as [-> | [-> | [-> Hnm]]].
  - destruct n as [|n]; cbn [rep].
    + rewrite append_nil, append_cons, append_nil. cbn [splitSEP].
      change (isSpace "|") with false. change (isDelim "|") with true. cbv iota.
      rewrite Tr. reflexivity.
    + rewrite !append_assoc3, !append_cons, !append_nil. cbn [splitSEP].
      change (isSpace " ") with true. cbv iota. f_equal.
      rewrite split_blanks by auto. cbn [splitSEP].
      change (isSpace "|") with false. change (isDelim "|") with true. cbv iota.
      exact Tr.
  - destruct n as [|n]; cbn [rep].
    + rewrite append_nil, append_cons, append_nil. cbn [splitSEP].
      change (isSpace ",") with false. change (isDelim ",") with true. cbv iota.
      rewrite Tr. reflexivity.
    + rewrite !append_assoc3, !append_cons, !append_nil. cbn [splitSEP].
      change (isSpace " ") with true. cbv iota. f_equal.
      rewrite split_blanks by auto. cbn [splitSEP].
      change (isSpace ",") with false. change (isDelim ",") with true. cbv iota.
      exact Tr.
  - rewrite append_nil.
    destruct n as [|n]; cbn [rep].
    + rewrite append_nil. destruct m as [|m]; [lia|]. cbn [rep].
      rewrite !append_assoc3, !append_cons, !append_nil. cbn [splitSEP].
      change (isSpace " ") with true. cbv iota. f_equal. apply Ws.
    + rewrite !append_assoc3, !append_cons, !append_nil. cbn [splitSEP].
      change (isSpace " ") with true. cbv iota. f_equal.
      rewrite split_blanks by auto. apply Ws.
Qed.

Lemma split_join n d m items :
  isSepText n d m -> items <> [] -> Forall (fun x => isItem x = true) items ->
  forall acc,
    splitSEP InTok acc (joinSep (sepText n d m) items) =
    match items with x :: r => (acc +:+ x) :: r | [] => [] end.
Proof.
  intros Hsep. induction items as [|x l IH]; [congruence|]. intros _ Hall acc.
  inversion Hall as [|x' l' Hx Hl]; subst.
  destruct l as [|y l].
  - cbn [joinSep]. rewrite <- (append_empty x) at 1.
    rewrite split_item by auto. reflexivity.
  - rewrite joinSep_cons, split_item by auto.
    destruct (joinSep_head (sepText n d m) (y :: l) ltac:(congruence) Hl)
      as (a & r & E & Ha).
    rewrite E, (split_sep n d m _ a r Hsep Ha). f_equal.
    specialize (IH ltac:(congruence) Hl EmptyString). rewrite E in IH.
    cbn [splitSEP] in IH. destruct (itemChar_facts a Ha) as [Hs Hd].
    rewrite Hs, Hd, append_nil in IH. rewrite IH, append_nil. reflexivity.
Qed.

(** X19: a text of items splits into its items.  When the items are not
    empty and hold no white space, bar or comma, and are written with one
    separator in between (blanks around at most one bar or comma, and at
    least one character), also with blanks before and after the whole,
    [listArr] returns exactly the items, in order. *)
Theorem listArr_join (n m k k' : nat) (d : string) (items : list string) :
  isSepText n d m -> items <> [] -> Forall (fun x => isItem x = true) items ->
  listArr (Str (rep " " k +:+ joinSep (sepText n d m) items +:+ rep " " k')) =
  Arr (map Str items).
Proof.
  intros Hsep Hne Hall. unfold listArr. cbn [isArr]. cbv iota. f_equal. f_equal.
  unfold trim. rewrite trimStart_blanks.
  destruct (joinSep_head (sepText n d m) items Hne Hall) as (a & r & E & Ha).
  destruct (itemChar_facts a Ha) as [Hs _].
  assert (T : trimStart (joinSep (sepText n d m) items +:+ rep " " k') =
              joinSep (sepText n d m) items +:+ rep " " k').
  { rewrite E, append_cons. cbn [trimStart]. rewrite Hs. reflexivity. }
  rewrite T, trimEnd_app, trimEnd_blanks, (trimEnd_join _ items Hne Hall).
  rewrite (split_join n d m items Hsep Hne Hall).
  destruct items as [|x l]; [congruence|]. rewrite append_nil. reflexivity.
Qed.

Lemma listArr_join_witness :
  listArr (Str (rep " " 2 +:+ joinSep (sepText 1 "|" 1) ["C4"; "Eb4"; "G4"] +:+ rep " " 1)) =
  Arr (map Str ["C4"; "Eb4"; "G4"]).
Proof.
  apply (listArr_join 1 1 2 1 "|" ["C4"; "Eb4"; "G4"]).
  - left. reflexivity.
  - discriminate.
  - repeat constructor.
Defined.

(** ** Transforming lists *)

Lemma mapM_ok (f : value -> M value) (g : value -> value) :
  (forall x c, cache_ok c -> exists c', f x c = (g x, c') /\ cache_ok c') ->
  forall l c, cache_ok c -> exists c', mapM f l c = (map g l, c') /\ cache_ok c'.
Proof.
  intros Hf. induction l as [|x l IH]; intros c Hc.
  - exists c. split; [reflexivity|exact Hc].
  - cbn [mapM]. unfold bind.
    destruct (Hf x c Hc) as (c1 & -> & Hc1).
    destruct (IH c1 Hc1) as (c2 & -> & Hc2).
    exists c2. split; [reflexivity|exact Hc2].
Qed.

Lemma asPitchVal_idem x : asPitchVal (asPitchVal x) = asPitchVal x.
Proof.
  unfold asPitchVal at 2 3. destruct (isPitch x) eqn:P.
  - unfold asPitchVal. rewrite P. reflexivity.
  - destruct x as [| | | |s|l]; try reflexivity.
    destruct (pitchOf_cases s) as [E|[(f & E)|[(f & o & E)|(f & o & d & E)]]];
      rewrite E; reflexivity.
Qed.

Lemma transposeVal_asPitchVal p x : transposeVal p (asPitchVal x) = transposeVal p x.
Proof. unfold transposeVal. rewrite asPitchVal_idem. reflexivity. Qed.

Lemma altToQ_text n a : exists q, ivlNttn.altToQ (Num n) (Num a) = Str q.
Proof.
  unfold ivlNttn.altToQ, ivlNttn.fillStr. autorewrite with js.
  destruct (Z.eqb_spec a 0) as [->|Hz].
  { destruct (eqStr _ "M"); eauto. }
  destruct ((a =? -1) && eqStr _ "M"); [eauto|].
  destruct (Z.ltb_spec 0 a); [cbn [toNumber]; eauto|].
  destruct (Z.ltb_spec a 0); [|lia].
  destruct (eqStr _ "P"); autorewrite with js; cbn [toNumber]; eauto.
Qed.

Lemma textHead_not_tnl s : textHead s -> s <> "tnl"%string.
Proof.
  intros (a & r & -> & H) [= -> _]. destruct H as [H | H]; discriminate H.
Qed.

Lemma strIvl_text_head f o d :
  d = 1 \/ d = -1 ->
  exists s, strIvl (Arr [tnl; Num f; Num o; Num d]) = Str s /\ textHead s.
Proof.
  intros Hd. unfold strIvl.
  change (isInterval (Arr [tnl; Num f; Num o; Num d])) with true. cbv iota zeta.
  rewrite decode_ivl by lia. unfold calcNum, calcAlt, isAsc.
  cbn [dir step alt oct]. rewrite isPerf_num by apply stepZ_range.
  autorewrite with js.
  set (n := if d =? 1 then _ else _).
  assert (A : exists a, (if d =? 1 then Num ((f + 1) / 7)
                         else if perfZ (stepZ ((f + 1) mod 7))
                              then Num (- ((f + 1) / 7))
                              else Num (- ((f + 1) / 7 + 1))) = Num a).
  { destruct (d =? 1); [eauto|]. destruct (perfZ _); eauto. }
  destruct A as (a & Ea).
  assert (N : exists k, n = Num k) by (subst n; destruct (d =? 1); eauto).
  destruct N as (k & Ek). rewrite Ek.
  match goal with |- context [ivlNttn.altToQ (Num k) ?x] => replace x with (Num a) end.
  destruct (altToQ_text k a) as (q & ->). autorewrite with js.
  eexists. split; [reflexivity|]. apply textHead_dec.
Qed.

Lemma transposeVal_shape a b :
  isPitch a = false -> isPitch b = false ->
  transposeVal a b = Null \/
  exists s, transposeVal a b = Str s /\ s <> "tnl"%string.
Proof.
  intros Ha Hb.
  assert (Nt : forall r s, strNote r = Str s -> noteOf s = r -> isPitch r = true ->
               s <> "tnl"%string).
  { intros r s _ Hn Hp ->. rewrite <- Hn in Hp. discriminate Hp. }
  assert (Pc : forall f, exists s, strNote (Arr [tnl; Num f]) = Str s /\ s <> "tnl"%string).
  { intros f. destruct (noteOf_strNote_pc f) as (s & Hs & Hn). exists s.
    split; [exact Hs|]. apply (Nt _ s Hs Hn). reflexivity. }
  assert (Nn : forall f o, exists s, strNote (Arr [tnl; Num f; Num o]) = Str s /\
                                     s <> "tnl"%string).
  { intros f o. destruct (noteOf_strNote_note f o) as (s & Hs & Hn). exists s.
    split; [exact Hs|]. apply (Nt _ s Hs Hn). reflexivity. }
  assert (Iv : forall f o, exists s,
               toPitchStr (ivlp (Num f) (Num o)) = Str s /\ s <> "tnl"%string).
  { intros f o.
    destruct (ivlp_num f o) as [E | E]; rewrite E;
      [destruct (strIvl_text_head f o (-1)) as (s & Hs & Hh); [auto|]
      |destruct (strIvl_text_head f o 1) as (s & Hs & Hh); [auto|]];
      exists s; (split; [exact Hs|apply textHead_not_tnl, Hh]). }
  unfold transposeVal. cbv zeta.
  destruct (asPitchVal_cases a Ha) as [Ea|[(f & Ea)|[(f & o & Ea)|(f & o & d & Ea)]]];
    destruct (asPitchVal_cases b Hb) as [Eb|[(g & Eb)|[(g & p & Eb)|(g & p & e & Eb)]]];
    rewrite Ea, Eb; try (left; reflexivity); right.
  - apply (Pc (g + f)).
  - apply (Nn (g + f) (p + o)).
  - apply (Pc (f + g)).
  - apply (Nn (f + g) (o + p)).
  - change (isInterval (Arr [tnl; Num f; Num o; Num d])) with true. cbv iota.
    unfold trBy. cbn [isNull len List.length idx nth]. autorewrite with js.
    change (3 =? 2) with false. change (4 =? 2) with false. change (4 =? 3) with false.
    cbv iota. apply (Iv (f + g) (o + p)).
Qed.

Lemma listToStr_texts L :
  Forall (fun y => exists s, y = Str s /\ s <> "tnl"%string) L ->
  listToStr (Arr L) = Arr L.
Proof.
  intros H. unfold listToStr.
  assert (P : isPitch (Arr L) = false).
  { unfold isPitch. cbn [truthy andb idx].
    destruct H as [|y L' (s & -> & Hs) _]; [reflexivity|].
    cbn [nth eqStr]. apply String.eqb_neq, Hs. }
  rewrite P. cbn [isArr elems]. f_equal. clear P.
  induction H as [|y L' (s & -> & _) _ IH]; [reflexivity|].
  cbn [map]. rewrite IH. unfold toPitchStr, notation. rewrite isPitch_Str. reflexivity.
Qed.

Lemma filter_shape (g : value -> value) l :
  (forall x, In x l ->
     g x = Null \/ exists s, g x = Str s /\ s <> "tnl"%string) ->
  Forall (fun y => exists s, y = Str s /\ s <> "tnl"%string)
         (List.filter truthy (map g l)).
Proof.
  induction l as [|x l IH]; intros H; [constructor|].
  cbn [map List.filter].
  assert (IH' := IH (fun y Hy => H y (or_intror Hy))).
  destruct (H x (or_introl eq_refl)) as [E | (s & E & Hs)]; rewrite E.
  - exact IH'.
  - destruct (truthy (Str s)); [constructor; eauto|exact IH'].
Qed.

(** X20: [harmonize] is [transpose] over the list, without the nulls.  On a
    consistent cache, for a tonic and list items that are not pitch arrays,
    such as names, it returns in order the values of [transpose(pitch, x)]
    for the items [x] of the list, leaving out those that are null. *)
Theorem harmonize_transposes (src p : value) (c : cache) :
  cache_ok c -> isPitch p = false ->
  Forall (fun x => isPitch x = false) (elems (listArr src)) ->
  fst (harmonize src p c) =
  Arr (List.filter truthy (map (fun x => fst (transpose p x c)) (elems (listArr src)))).
Proof.
  intros Hc Hp Hl. set (L := elems (listArr src)) in *.
  assert (E : map (fun x => fst (transpose p x c)) L = map (transposeVal p) L).
  { apply map_ext. intros x. destruct (transpose_ok p x c Hc) as (c' & -> & _).
    reflexivity. }
  rewrite E. unfold harmonize, harmonizer, transform, bind. fold L.
  destruct (mapM_ok asPitch asPitchVal asPitch_ok L c Hc) as (c1 & -> & Hc1).
  cbn [elems].
  destruct (mapM_ok (transpose p) (transposeVal p) (transpose_ok p)
              (map asPitchVal L) c1 Hc1) as (c2 & -> & _).
  unfold ret. cbn [fst]. rewrite map_map.
  assert (E2 : map (fun x => transposeVal p (asPitchVal x)) L = map (transposeVal p) L).
  { apply map_ext. intros x. apply transposeVal_asPitchVal. }
  rewrite E2. apply listToStr_texts, filter_shape.
  intros x Hx. apply transposeVal_shape; [exact Hp|].
  apply (proj1 (List.Forall_forall _ _) Hl), Hx.
Qed.

Lemma harmonize_transposes_witness :
  fst (harmonize (Str "1P 3M C4 5P") (Str "D4") ∅) =
  Arr (List.filter truthy
         (map (fun x => fst (transpose (Str "D4") x ∅))
              (elems (listArr (Str "1P 3M C4 5P"))))).
Proof.
  apply (harmonize_transposes (Str "1P 3M C4 5P") (Str "D4") ∅);
    [exact cache_ok_empty | reflexivity | repeat constructor].
Defined.

(** ** The highest pitch *)

Lemma objHeight_note fo : objHeight (noteArr fo) = Fin (Num (semis fo)).
Proof.
  unfold objHeight, noteArr, semis. cbn [truthy negb idx nth isNum].
  autorewrite with js. repeat (f_equal; try lia).
Qed.

Lemma maxP_notes a b :
  maxP (noteArr a) (noteArr b) = noteArr (if semis a <? semis b then b else a).
Proof.
  unfold maxP, ascComp. rewrite !objHeight_note. cbn [hsub hneg0].
  autorewrite with js.
  destruct (Z.ltb_spec (semis a - semis b) 0), (Z.ltb_spec (semis a) (semis b));
    try reflexivity; lia.
Qed.

Lemma fold_maxP fos a :
  exists m, In m (a :: fos) /\
            fold_left maxP (map noteArr fos) (noteArr a) = noteArr m /\
            forall x, In x (a :: fos) -> semis x <= semis m.
Proof.
  revert a. induction fos as [|b fos IH]; intros a.
  - exists a. split; [left; reflexivity|]. split; [reflexivity|].
    intros x [<- | []]. lia.
  - cbn [map fold_left]. rewrite maxP_notes.
    destruct (IH (if semis a <? semis b then b else a)) as (m & Hin & Hf & Hmax).
    exists m. split; [|split; [exact Hf|]].
    + destruct Hin as [<- | Hin]; [|right; right; exact Hin].
      destruct (semis a <? semis b); [right; left; reflexivity|left; reflexivity].
    + pose proof (Hmax _ (or_introl eq_refl)) as H0.
      intros x [<- | [<- | Hx]].
      * destruct (Z.ltb_spec (semis a) (semis b)); lia.
      * destruct (Z.ltb_spec (semis a) (semis b)); lia.
      * apply Hmax. right. exact Hx.
Qed.

(** X21: [max] returns the name of a highest note.  On a consistent cache,
    when the items of the list stand for the Notes [fos], the result is null
    for the empty list and otherwise the name of one of the Notes, whose
    height 7 * fifths + 12 * octaves (the midi number less 12) is the
    greatest of the list. *)
Theorem max_highest (src : value) (c : cache) (fos : list (Z * Z)) :
  cache_ok c ->
  map (fun x => fst (asPitch x c)) (elems (listArr src)) = map noteArr fos ->
  (fos = [] -> fst (max src c) = Null) /\
  (fos <> [] ->
   exists m, In m fos /\ fst (max src c) = strNote (noteArr m) /\
             forall x, In x fos -> semis x <= semis m).
Proof.
  intros Hc Hl. set (L := elems (listArr src)) in *.
  assert (E : map (fun x => fst (asPitch x c)) L = map asPitchVal L).
  { apply map_ext. intros x. apply asPitchVal_fst, Hc. }
  rewrite E in Hl.
  assert (R : fst (max src c) = listToStr (fold_left maxP (map noteArr fos) Null)).
  { unfold max, transform, bind. fold L.
    destruct (mapM_ok asPitch asPitchVal asPitch_ok L c Hc) as (c1 & -> & _).
    unfold ret. cbn [fst elems]. rewrite Hl. reflexivity. }
  rewrite R. split.
  - intros ->. reflexivity.
  - intros Hne. destruct fos as [|a fos]; [congruence|].
    cbn [map fold_left].
    assert (N : maxP Null (noteArr a) = noteArr a).
    { unfold maxP, ascComp. rewrite objHeight_note. reflexivity. }
    rewrite N. destruct (fold_maxP fos a) as (m & Hin & -> & Hmax).
    exists m. split; [exact Hin|]. split; [reflexivity|exact Hmax].
Qed.

Lemma max_highest_witness :
  exists m, In m [(0, 4); (4, 3); (2, 2)] /\
            fst (max (Str "C4 E5 D3") ∅) = strNote (noteArr m) /\
            forall x, In x [(0, 4); (4, 3); (2, 2)] -> semis x <= semis m.
Proof.
  apply (max_highest (Str "C4 E5 D3") ∅ [(0, 4); (4, 3); (2, 2)]);
    [exact cache_ok_empty | reflexivity | discriminate].
Defined.

(** X22: the heights that order a list.  [objHeight] ranks a Note by its
    midi number less 12 and a Pitch Class by its chroma less 120, that is as
    the note of that chroma ten octaves below octave 0; so [ascComp] is
    negative exactly when the first of two Notes has the smaller midi
    number, and [descComp] when it has the greater. *)
Theorem objHeight_values (c : cache) (f o f' o' : Z) :
  objHeight (Arr [tnl; Num f; Num o]) =
    Fin (jsSub (fst (midi (Arr [tnl; Num f; Num o]) c)) (Num 12)) /\
  objHeight (Arr [tnl; Num f]) =
    Fin (jsSub (fst (chroma (Arr [tnl; Num f]) c)) (Num 120)) /\
  hneg0 (ascComp (Arr [tnl; Num f; Num o]) (Arr [tnl; Num f'; Num o'])) =
    ltZ (jsSub (fst (midi (Arr [tnl; Num f; Num o]) c))
               (fst (midi (Arr [tnl; Num f'; Num o']) c))) 0 /\
  hneg0 (descComp (Arr [tnl; Num f; Num o]) (Arr [tnl; Num f'; Num o'])) =
    ltZ (jsSub (fst (midi (Arr [tnl; Num f'; Num o']) c))
               (fst (midi (Arr [tnl; Num f; Num o]) c))) 0.
Proof.
  rewrite !midi_array. cbn [fst].
  assert (Hn : forall g p, objHeight (Arr [tnl; Num g; Num p]) = Fin (Num (7 * g + 12 * p))).
  { intros g p. apply (objHeight_note (g, p)). }
  split; [|split; [|split]].
  - rewrite Hn. autorewrite with js. repeat (f_equal; try lia).
  - unfold chroma, noteFn, pitchOp, ret, objHeight.
    change (isPitch (Arr [tnl; Num f])) with true. cbv iota.
    cbn [truthy negb idx nth isNum fst]. autorewrite with js.
    repeat (f_equal; try lia).
  - unfold ascComp. rewrite !Hn. cbn [hsub hneg0]. autorewrite with js.
    destruct (Z.ltb_spec (7 * f + 12 * o - (7 * f' + 12 * o')) 0),
             (Z.ltb_spec (7 * f + 12 * o + 12 - (7 * f' + 12 * o' + 12)) 0);
      try reflexivity; lia.
  - unfold descComp, ascComp. rewrite !Hn. cbn [hsub hneg hneg0]. autorewrite with js.
    destruct (Z.ltb_spec (- (7 * f + 12 * o - (7 * f' + 12 * o'))) 0),
             (Z.ltb_spec (7 * f' + 12 * o' + 12 - (7 * f + 12 * o + 12)) 0);
      try reflexivity; lia.
Qed.

(** ** Scientific notation *)

Lemma ivlOf_dir s :
  ivlOf s = Null \/
  exists f o d, ivlOf s = Arr [tnl; Num f; Num o; Num d] /\ (d = 1 \/ d = -1).
Proof.
  unfold ivlOf, ivlNttn.parse.
  destruct (match s with String "-"%char r => _ | _ => _ end) as [neg s1].
  destruct (match spanDigits s1 with (EmptyString, _) => _ | _ => _ end) as [ds q].
  destruct (NilZero.uint_of_string ds) as [u|]; [|auto].
  destruct (Z.ltb_spec (Z.of_uint u) 1); [auto|].
  destruct (ivlNttn.qToAlt _ q) as [a|]; [|auto].
  simpl. unfold ivl. rewrite jsSub_num.
  right. rewrite encode_ivl.
  - cbv zeta. destruct neg.
    + change (-1 <? 0) with true. cbv iota. eauto 8.
    + change (1 <? 0) with false. cbv iota. eauto 8.
  - pose proof (Z.mod_pos_bound (Z.of_uint u - 1) 7). lia.
Qed.

Lemma parseNote_val s c :
  cache_ok c ->
  fst (parseNote (Str s) c) = noteOf s \/
  (truthy (noteOf s) = false /\ fst (parseNote (Str s) c) = ivlOf s).
Proof.
  intros Hc. unfold parseNote.
  destruct (cached_cases noteOf s c) as [(v & E & Tv & H) | [_ H]];
    rewrite H; cbn [fst]; [|left; reflexivity].
  rewrite (Hc s v E Tv). unfold pitchOf, jsOr.
  destruct (truthy (noteOf s)); [left; reflexivity|right; auto].
Qed.

Lemma sci_text s c :
  cache_ok c ->
  fst (sci (Str s) c) = if truthy (noteOf s) then strNote (noteOf s) else Null.
Proof.
  intros Hc. unfold sci, noteFn, pitchOp, bind. rewrite isPitch_Str.
  pose proof (parseNote_val s c Hc) as V.
  destruct (parseNote (Str s) c) as [p c1]. cbn [fst] in V.
  destruct V as [-> | [T ->]].
  - destruct (noteOf_cases s) as [E | [[f E] | (f & o & E)]]; rewrite E; reflexivity.
  - rewrite T.
    destruct (ivlOf_dir s) as [E | (f & o & d & E & [-> | ->])]; rewrite E; reflexivity.
Qed.

(** X23: [sci] normalizes a note name.  On consistent caches, whenever [sci]
    returns a text, [sci] of that text returns it unchanged; and the names
    that [strNote] writes for Pitch Classes and Notes are returned as they
    are. *)
Theorem sci_fixed_point (c c' : cache) (s t : string) (f o : Z) :
  cache_ok c -> cache_ok c' ->
  (fst (sci (Str s) c) = Str t -> fst (sci (Str t) c') = Str t) /\
  fst (sci (strNote (Arr [tnl; Num f])) c) = strNote (Arr [tnl; Num f]) /\
  fst (sci (strNote (Arr [tnl; Num f; Num o])) c) = strNote (Arr [tnl; Num f; Num o]).
Proof.
  intros Hc Hc'.
  assert (G : forall c0 p u, cache_ok c0 -> strNote p = Str u -> noteOf u = p ->
              isPitch p = true -> fst (sci (strNote p) c0) = strNote p).
  { intros c0 p u H0 Hu Hn Hp. rewrite Hu, (sci_text u c0 H0), Hn.
    destruct (isPitch_Arr p Hp) as [l ->]. cbn [truthy]. exact Hu. }
  assert (Gp : forall c0 g, cache_ok c0 ->
               fst (sci (strNote (Arr [tnl; Num g])) c0) = strNote (Arr [tnl; Num g])).
  { intros c0 g H0. destruct (noteOf_strNote_pc g) as (u & Hu & Hn).
    apply (G c0 _ u H0 Hu Hn). reflexivity. }
  assert (Gn : forall c0 g p, cache_ok c0 ->
               fst (sci (strNote (Arr [tnl; Num g; Num p])) c0) =
               strNote (Arr [tnl; Num g; Num p])).
  { intros c0 g p H0. destruct (noteOf_strNote_note g p) as (u & Hu & Hn).
    apply (G c0 _ u H0 Hu Hn). reflexivity. }
  split; [|split; [apply Gp, Hc|apply Gn, Hc]].
  rewrite (sci_text s c Hc).
  destruct (noteOf_cases s) as [E | [[g E] | (g & p & E)]]; rewrite E; cbn [truthy].
  - discriminate.
  - intros H. rewrite <- H. apply Gp, Hc'.
  - intros H. rewrite <- H. apply Gn, Hc'.
Qed.

Lemma sci_fixed_point_witness :
  fst (sci (Str "C4") ∅) = Str "C4" /\
  fst (sci (Str "C4") ∅) = Str "C4" /\
  fst (sci (strNote (Arr [tnl; Num 1])) ∅) = strNote (Arr [tnl; Num 1]) /\
  fst (sci (strNote (Arr [tnl; Num 1; Num 2])) ∅) = strNote (Arr [tnl; Num 1; Num 2]).
Proof.
  destruct (sci_fixed_point ∅ ∅ "C4" "C4" 1 2 cache_ok_empty cache_ok_empty)
    as (H1 & H2 & H3).
  split; [reflexivity|]. split; [apply H1; reflexivity|]. split; [exact H2|exact H3].
Defined.

(** ** Sums of intervals *)

Lemma transposeVal_ivls i j fi oi di fj oj dj :
  asPitchVal i = Arr [tnl; Num fi; Num oi; Num di] ->
  asPitchVal j = Arr [tnl; Num fj; Num oj; Num dj] ->
  transposeVal i j = strIvl (ivlp (Num (fi + fj)) (Num (oi + oj))).
Proof.
  intros Hi Hj. unfold transposeVal. cbv zeta. rewrite Hi, Hj.
  change (isInterval (Arr [tnl; Num fi; Num oi; Num di])) with true. cbv iota.
  unfold trBy. cbn [isNull len List.length idx nth]. autorewrite with js.
  change (4 =? 2) with false. change (4 =? 3) with false. cbv iota.
  change (Arr [tnl; Num (fi + fj); Num (oi + oj); calcDir (Num (fi + fj)) (Num (oi + oj))])
    with (ivlp (Num (fi + fj)) (Num (oi + oj))).
  destruct (ivlp_num (fi + fj) (oi + oj)) as [E | E]; rewrite E; reflexivity.
Qed.

(** X24: transposing twice is transposing by the sum.  On a consistent
    cache, for a Note [a] and Intervals [i] and [j] whose sum has a positive
    interval number, transposing [a] by [i] and the result by [j] returns
    the same name as transposing [a] by [transpose(i, j)]. *)
Theorem transpose_twice (c : cache) (a i j : value) (fa oa fi oi di fj oj dj n : Z) :
  cache_ok c ->
  fst (asPitch a c) = Arr [tnl; Num fa; Num oa] ->
  fst (asPitch i c) = Arr [tnl; Num fi; Num oi; Num di] ->
  fst (asPitch j c) = Arr [tnl; Num fj; Num oj; Num dj] ->
  fst (number (ivlp (Num (fi + fj)) (Num (oi + oj))) c) = Num n -> 1 <= n ->
  fst ((t <- transpose a i ;; transpose t j) c) =
  fst ((k <- transpose i j ;; transpose a k) c).
Proof.
  intros Hc Ha Hi Hj Hn Hpos.
  rewrite (asPitchVal_fst a c Hc) in Ha. rewrite (asPitchVal_fst i c Hc) in Hi.
  rewrite (asPitchVal_fst j c Hc) in Hj.
  rewrite number_pitch in Hn by reflexivity. cbn [fst] in Hn.
  unfold bind.
  destruct (transpose_ok a i c Hc) as (c1 & -> & Hc1).
  destruct (transpose_ok (transposeVal a i) j c1 Hc1) as (c2 & -> & _).
  destruct (transpose_ok i j c Hc) as (c3 & -> & Hc3).
  destruct (transpose_ok a (transposeVal i j) c3 Hc3) as (c4 & -> & _).
  cbn [fst].
  destruct (transposeVal_note a i fa oa fi oi di Ha Hi) as [E1 _].
  destruct (noteOf_strNote_note (fi + fa) (oi + oa)) as (s & Hs & Hs').
  rewrite E1, Hs.
  destruct (transposeVal_note (Str s) j (fi + fa) (oi + oa) fj oj dj
              (asPitchVal_note_text s _ _ Hs') Hj) as [-> _].
  rewrite (transposeVal_ivls i j fi oi di fj oj dj Hi Hj).
  destruct (strIvl_ivlp_text (fi + fj) (oi + oj) n Hn Hpos) as (t & -> & Ht).
  assert (exists d, asPitchVal (Str t) = Arr [tnl; Num (fi + fj); Num (oi + oj); Num d])
    as (d & Hd).
  { rewrite Ht. destruct (ivlp_num (fi + fj) (oi + oj)) as [E | E]; rewrite E; eauto. }
  destruct (transposeVal_note a (Str t) fa oa (fi + fj) (oi + oj) d Ha Hd) as [-> _].
  repeat (f_equal; try lia).
Qed.

Lemma transpose_twice_witness :
  fst ((t <- transpose (Str "C4") (Str "3M") ;; transpose t (Str "3m")) ∅) =
  fst ((k <- transpose (Str "3M") (Str "3m") ;; transpose (Str "C4") k) ∅).
Proof.
  apply (transpose_twice ∅ (Str "C4") (Str "3M") (Str "3m") 0 4 4 (-2) 1 (-3) 2 1 5);
    [exact cache_ok_empty | reflexivity | reflexivity | reflexivity | reflexivity | lia].
Defined.
